(** * LeetCode submission downloader: the ingestion pipeline

    A shallow embedding of [lcus_submission.py]: the per-record handler
    [LeetCodeScraper._process_submission], the worker pool that
    [fetch_submissions] dispatches every batch to, and the pagination loop
    of [fetch_submissions] itself, followed by the properties of the
    pipeline that are proved about them.

    The browser session is an oracle ([feed]); the file system is a record
    of finite maps ([disk]); the operating system's refusals (a directory
    that cannot be created, a file that cannot be opened) are oracles too
    ([os_env]).  Every effect the code has on the world is also appended to
    a trace of [event]s, newest first. *)

From Stdlib Require Import ZArith Lia.
From stdpp Require Import gmap strings list.

Open Scope Z_scope.

(** ** Python text and its UTF-8 encoding

    A Python [str] is a sequence of code points.  Problem slugs, language
    identifiers and status labels are only compared and concatenated by the
    code, and are kept as [string]; the code body, which is written to a
    file opened with [encoding='utf-8'], is kept as its code points. *)

Definition pystr := list Z.

(** The 'utf-8' codec with the default (strict) error handler: [None] is
    [UnicodeEncodeError], raised for a lone surrogate. *)
Definition utf8_encode_char (c : Z) : option (list Z) :=
  if c <? 0 then None
  else if c <? 0x80 then Some [c]
  else if c <? 0x800 then
    Some [Z.lor 0xC0 (Z.shiftr c 6); Z.lor 0x80 (Z.land c 0x3F)]
  else if c <? 0x10000 then
    if (0xD800 <=? c) && (c <=? 0xDFFF) then None
    else Some [Z.lor 0xE0 (Z.shiftr c 12);
               Z.lor 0x80 (Z.land (Z.shiftr c 6) 0x3F);
               Z.lor 0x80 (Z.land c 0x3F)]
  else if c <? 0x110000 then
    Some [Z.lor 0xF0 (Z.shiftr c 18);
          Z.lor 0x80 (Z.land (Z.shiftr c 12) 0x3F);
          Z.lor 0x80 (Z.land (Z.shiftr c 6) 0x3F);
          Z.lor 0x80 (Z.land c 0x3F)]
  else None.

Fixpoint utf8_encode (s : pystr) : option (list Z) :=
  match s with
  | [] => Some []
  | c :: s' =>
      match utf8_encode_char c, utf8_encode s' with
      | Some bs, Some rest => Some (bs ++ rest)
      | _, _ => None
      end
  end.



(** A file opened in text mode with the default [newline=None] writes every
    line feed as [os.linesep]. *)
Definition translate_newlines (linesep : pystr) (s : pystr) : pystr :=
  flat_map (fun c => if c =? 10 then linesep else [c]) s.

(** [os.linesep] of a POSIX system, the platform this development is about:
    there the translation changes nothing. *)
Definition os_linesep : pystr := [10].

(** The bytes that [f.write(s)] sends to a file opened with
    [open('w', encoding='utf-8')]. *)
Definition text_bytes (s : pystr) : option (list Z) :=
  utf8_encode (translate_newlines os_linesep s).

(** ** Global constants *)

Definition BATCH_SIZE : Z := 20.
Definition MAX_WORKERS : nat := 4.

Definition LANG_EXTENSIONS : gmap string string :=
  list_to_map
    [("cpp", "cpp"); ("java", "java"); ("python", "py"); ("python3", "py");
     ("c", "c"); ("csharp", "cs"); ("javascript", "js"); ("ruby", "rb");
     ("swift", "swift"); ("golang", "go"); ("scala", "scala"); ("kotlin", "kt");
     ("rust", "rs"); ("mysql", "sql"); ("bash", "sh")]%string.

(** ** Records of the feed

    A raw record is the dict decoded from the feed; a key may be absent. *)
Record raw_submission := RawSubmission {
  raw_title_slug : option string;
  raw_lang : option string;
  raw_timestamp : option Z;
  raw_status_display : option string;
  raw_code : option pystr
}.

(** The dataclass [Submission]. *)
Record Submission := MkSubmission {
  title_slug : string;
  lang : string;
  timestamp : Z;
  status : string;
  code : pystr
}.

(** [Submission(title_slug=submission['title_slug'], ...)]: [None] is the
    [KeyError] of the first absent key. *)
Definition mk_submission (submission : raw_submission) : option Submission :=
  s ← raw_title_slug submission;
  l ← raw_lang submission;
  t ← raw_timestamp submission;
  st ← raw_status_display submission;
  c ← raw_code submission;
  Some (MkSubmission s l t st c).

(** [submission.get('title_slug', 'unknown')] *)
Definition error_label (submission : raw_submission) : string :=
  default "unknown"%string (raw_title_slug submission).

(** ** The world: disk, dedup set, trace *)

(** What a detail file holds: the JSON text of the raw record, or the
    beginning of it when [json.dump] was interrupted. *)
Inductive detail_content :=
| Complete (submission : raw_submission)
| Partial.

(** [dirs] are the per-problem folders under [base_dir]; a detail file
    [base_dir/<slug>/<timestamp>.json] is keyed by slug and timestamp; an
    accepted file is keyed by its name in [accepted_dir] and holds bytes. *)
Record disk := Disk {
  dirs : gset string;
  detail_files : gmap (string * Z) detail_content;
  accepted_files : gmap string (list Z)
}.

Inductive event :=
| LogSkipping (slug : string)
| DetailWrite (slug : string) (ts : Z) (content : detail_content)
| AcceptedWrite (slug : string) (name : string) (bytes : list Z)
| LogSaved (slug : string)
| LogProcessingError (label : string)
| LogStarting
| Get (offset : Z)
| Sleep (seconds : Z)
| LogProcessing (count : nat) (offset : Z)
| LogNoMore
| LogJsonError (offset : Z)
| LogFetchError (offset : Z).

Record world := World {
  fs : disk;
  accepted_slugs : gset string;
  trace : list event
}.

(** What the operating system refuses: creating a problem folder, opening a
    detail file for writing, opening an accepted file for writing. *)
Record os_env := OsEnv {
  mkdir_ok : string → bool;
  detail_open_ok : string → Z → bool;
  accepted_open_ok : string → bool
}.

(** A new [LeetCodeScraper] over the files of an earlier run:
    [self.accepted_slugs = set()]. *)
Definition fresh_run (d : disk) : world :=
  World d ∅ [].

Definition log (e : event) (w : world) : world :=
  World (fs w) (accepted_slugs w) (e :: trace w).

Definition json_exists (sub : Submission) (w : world) : bool :=
  bool_decide (is_Some (detail_files (fs w) !! (title_slug sub, timestamp sub))).

Definition make_dir (slug : string) (w : world) : world :=
  World (Disk ({[slug]} ∪ dirs (fs w)) (detail_files (fs w)) (accepted_files (fs w)))
        (accepted_slugs w) (trace w).

Definition put_detail (sub : Submission) (c : detail_content) (w : world) : world :=
  World (Disk (dirs (fs w))
              (<[(title_slug sub, timestamp sub) := c]> (detail_files (fs w)))
              (accepted_files (fs w)))
        (accepted_slugs w)
        (DetailWrite (title_slug sub) (timestamp sub) c :: trace w).

Definition add_slug (slug : string) (w : world) : world :=
  World (fs w) ({[slug]} ∪ accepted_slugs w) (trace w).

Definition put_accepted (slug name : string) (bytes : list Z) (w : world) : world :=
  World (Disk (dirs (fs w)) (detail_files (fs w))
              (<[name := bytes]> (accepted_files (fs w))))
        (accepted_slugs w)
        (AcceptedWrite slug name bytes :: trace w).

(** [LANG_EXTENSIONS.get(sub.lang, sub.lang)] and
    [f'{sub.title_slug}.{extension}'] *)
Definition extension_of (l : string) : string :=
  default l (LANG_EXTENSIONS !! l).

Definition accepted_name (sub : Submission) : string :=
  (title_slug sub +:+ "." +:+ extension_of (lang sub))%string.

Definition is_accepted (sub : Submission) : bool :=
  bool_decide (status sub = "Accepted"%string).

(** ** [_process_submission], statement by statement

    The classification of a record; [Dropped] is the [except] branch. *)
Inductive outcome := Skip | DetailOnly | DetailAndAccepted | Dropped.

(** The statements of the [try] block a worker can stand before. *)
Inductive line :=
| LMkdir    (* folder_path.mkdir(exist_ok=True) *)
| LDump     (* with json_path.open('w') ...: json.dump(...) *)
| LCheck    (* if sub.status == 'Accepted' and slug not in accepted_slugs *)
| LAdd      (* self.accepted_slugs.add(sub.title_slug) *)
| LExport.  (* extension, accepted_path, open, f.write(sub.code), info *)

Inductive pc :=
| Idle
| Start (submission : raw_submission)
| At (l : line) (submission : raw_submission) (sub : Submission)
| Finished (o : outcome).

(** [except Exception as e: self.logger.error(...)] *)
Definition handler (submission : raw_submission) (w : world) : pc * world :=
  (Finished Dropped, log (LogProcessingError (error_label submission)) w).

(** One statement of one worker.  Building the [Submission] and the paths
    touches nothing shared and is part of the step of the existence check;
    computing the extension and the accepted path is part of the step of the
    write. *)
Definition worker_step (env : os_env) (p : pc) (w : world) : pc * world :=
  match p with
  | Idle => (Idle, w)
  | Finished o => (Finished o, w)
  | Start submission =>
      match mk_submission submission with
      | None => handler submission w
      | Some sub =>
          if json_exists sub w
          then (Finished Skip, log (LogSkipping (title_slug sub)) w)
          else (At LMkdir submission sub, w)
      end
  | At LMkdir submission sub =>
      if bool_decide (title_slug sub ∈ dirs (fs w))
      then (At LDump submission sub, w)
      else if mkdir_ok env (title_slug sub)
           then (At LDump submission sub, make_dir (title_slug sub) w)
           else handler submission w
  | At LDump submission sub =>
      if detail_open_ok env (title_slug sub) (timestamp sub)
      then match text_bytes (code sub) with
           | Some _ => (At LCheck submission sub,
                        put_detail sub (Complete submission) w)
           | None => handler submission (put_detail sub Partial w)
           end
      else handler submission w
  | At LCheck submission sub =>
      if is_accepted sub && negb (bool_decide (title_slug sub ∈ accepted_slugs w))
      then (At LAdd submission sub, w)
      else (Finished DetailOnly, w)
  | At LAdd submission sub =>
      (At LExport submission sub, add_slug (title_slug sub) w)
  | At LExport submission sub =>
      if accepted_open_ok env (accepted_name sub)
      then match text_bytes (code sub) with
           | Some bytes =>
               (Finished DetailAndAccepted,
                log (LogSaved (title_slug sub))
                  (put_accepted (title_slug sub) (accepted_name sub) bytes w))
           | None =>
               handler submission
                 (put_accepted (title_slug sub) (accepted_name sub) [] w)
           end
      else handler submission w
  end.

Fixpoint run_worker (n : nat) (env : os_env) (p : pc) (w : world) : pc * world :=
  match n with
  | O => (p, w)
  | S n' => let '(p', w') := worker_step env p w in run_worker n' env p' w'
  end.

(** ** [_process_submission], run by one thread without interruption *)

Definition dropped (submission : raw_submission) (w : world) : outcome * world :=
  (Dropped, log (LogProcessingError (error_label submission)) w).

Definition export_accepted (env : os_env) (submission : raw_submission)
    (sub : Submission) (w : world) : outcome * world :=
  if is_accepted sub && negb (bool_decide (title_slug sub ∈ accepted_slugs w))
  then
    let w1 := add_slug (title_slug sub) w in
    if accepted_open_ok env (accepted_name sub)
    then match text_bytes (code sub) with
         | Some bytes =>
             (DetailAndAccepted,
              log (LogSaved (title_slug sub))
                (put_accepted (title_slug sub) (accepted_name sub) bytes w1))
         | None =>
             dropped submission
               (put_accepted (title_slug sub) (accepted_name sub) [] w1)
         end
    else dropped submission w1
  else (DetailOnly, w).

Definition process_submission (env : os_env) (submission : raw_submission)
    (w : world) : outcome * world :=
  match mk_submission submission with
  | None => dropped submission w
  | Some sub =>
      if json_exists sub w
      then (Skip, log (LogSkipping (title_slug sub)) w)
      else
        let folder_ready :=
          if bool_decide (title_slug sub ∈ dirs (fs w)) then Some w
          else if mkdir_ok env (title_slug sub)
               then Some (make_dir (title_slug sub) w)
               else None in
        match folder_ready with
        | None => dropped submission w
        | Some w1 =>
            if detail_open_ok env (title_slug sub) (timestamp sub)
            then match text_bytes (code sub) with
                 | Some _ =>
                     export_accepted env submission sub
                       (put_detail sub (Complete submission) w1)
                 | None => dropped submission (put_detail sub Partial w1)
                 end
            else dropped submission w1
        end
  end.

(** Records handled one after the other, in the order of the list. *)
Fixpoint process_all (env : os_env) (submissions : list raw_submission)
    (w : world) : list outcome * world :=
  match submissions with
  | [] => ([], w)
  | r :: rest =>
      let '(o, w1) := process_submission env r w in
      let '(os, w2) := process_all env rest w1 in
      (o :: os, w2)
  end.

(** ** The worker pool of [fetch_submissions]

    [ThreadPoolExecutor(max_workers=MAX_WORKERS)] with
    [executor.map(self._process_submission, submissions)]: the records wait
    in a queue in feed order; a worker without a task takes the head of the
    queue; a worker with a task runs its next statement.  A schedule names,
    step by step, the worker that moves. *)
Record pool := Pool {
  queue : list raw_submission;
  workers : list pc
}.

Definition init_pool (submissions : list raw_submission) : pool :=
  Pool submissions (replicate MAX_WORKERS Idle).

Definition is_idle (p : pc) : bool :=
  match p with
  | Idle | Finished _ => true
  | _ => false
  end.

Definition pool_step (env : os_env) (pw : pool * world) (i : nat) : pool * world :=
  match workers pw.1 !! i with
  | None => pw
  | Some p =>
      if is_idle p then
        match queue pw.1 with
        | [] => pw
        | r :: q => (Pool q (<[i := Start r]> (workers pw.1)), pw.2)
        end
      else
        let '(p', w') := worker_step env p pw.2 in
        (Pool (queue pw.1) (<[i := p']> (workers pw.1)), w')
  end.

Definition exec (env : os_env) (sched : list nat) (pw : pool * world) : pool * world :=
  fold_left (pool_step env) sched pw.

(** Leaving the [with] block joins the pool: every task that was started is
    finished and every queued record is processed.  After the scheduled
    steps, the workers finish their tasks one after the other and the queue
    that is left is worked off in order. *)
Definition drain (env : os_env) (pw : pool * world) : world :=
  let w1 := fold_left (fun w p => (run_worker 6 env p w).2) (workers pw.1) pw.2 in
  fold_left (fun w r => (process_submission env r w).2) (queue pw.1) w1.

Definition run_batch (env : os_env) (sched : list nat)
    (submissions : list raw_submission) (w : world) : world :=
  drain env (exec env sched (init_pool submissions, w)).

(** ** [fetch_submissions]

    What the session answers to the [n]-th request, made at an offset. *)
Inductive response :=
| TransportError                (* driver.get raises *)
| PageError                     (* no body element, or the JSON is not an object *)
| NotJson                       (* json.loads raises JSONDecodeError *)
| Page (submissions_dump : option (list raw_submission)).

Record fetch_state := FetchState {
  offset : Z;
  calls : nat;
  now : world
}.

(** One turn of [while True]; [true] is [break]. *)
Definition fetch_turn (env : os_env) (feed : nat → Z → response)
    (sched : nat → list nat) (s : fetch_state) : bool * fetch_state :=
  let n := calls s in
  let w := log (Get (offset s)) (now s) in
  match feed n (offset s) with
  | TransportError =>
      (false, FetchState (offset s) (S n)
                (log (Sleep 5) (log (LogFetchError (offset s)) w)))
  | PageError =>
      (false, FetchState (offset s) (S n)
                (log (Sleep 5) (log (LogFetchError (offset s)) (log (Sleep 2) w))))
  | NotJson =>
      (false, FetchState (offset s) (S n)
                (log (Sleep 5) (log (LogJsonError (offset s)) (log (Sleep 2) w))))
  | Page dump =>
      match default [] dump with
      | [] => (true, FetchState (offset s) (S n) (log LogNoMore (log (Sleep 2) w)))
      | submissions =>
          (false,
           FetchState (offset s + BATCH_SIZE) (S n)
             (run_batch env (sched n) submissions
                (log (LogProcessing (length submissions) (offset s))
                   (log (Sleep 2) w))))
      end
  end.

(** The loop has no bound of its own; [fuel] bounds the turns that are
    followed, and [None] says that the loop has not left by then. *)
Fixpoint fetch_loop (fuel : nat) (env : os_env) (feed : nat → Z → response)
    (sched : nat → list nat) (s : fetch_state) : option fetch_state :=
  match fuel with
  | O => None
  | S fuel' =>
      let '(stop, s') := fetch_turn env feed sched s in
      if stop then Some s' else fetch_loop fuel' env feed sched s'
  end.

Definition fetch_submissions (fuel : nat) (env : os_env)
    (feed : nat → Z → response) (sched : nat → list nat) (w : world)
  : option fetch_state :=
  fetch_loop fuel env feed sched (FetchState 0 0 (log LogStarting w)).

(** ** The browser session: [login] and [run]

    Chrome is an oracle as well.  The drivers that [_setup_driver] returns
    are numbered by the call that made them. *)

Definition MAX_RETRIES : nat := 3.

Inductive exn :=
| SetupError        (* _setup_driver logs and re-raises *)
| FormError         (* a statement of the try block of login raises *)
| ScreenshotError   (* save_screenshot raises *)
| QuitError         (* driver.quit raises *)
| NoDriver.         (* AttributeError: self.driver is None *)

(** What the [try] block of [login] comes to once the driver is there:
    the last [wait.until] is truthy, it is falsy, or a statement raises. *)
Inductive form_result := UrlChanged | UrlSame | FormRaises.

Record session_env := SessionEnv {
  setup_ok : nat → bool;        (* by the number of earlier calls *)
  form : nat → form_result;     (* by the attempt *)
  screenshot_ok : bool;
  quit_ok : nat → bool          (* by the number of earlier calls *)
}.

Inductive session_event :=
| LogLoginStarting
| LogInitializing
| DriverStarted (id : nat)
| LogSetupFailed
| LoginPage (id : nat)
| LogLoginSuccessful
| LogAttemptFailed (number : nat) (e : exn)
| Screenshot (id : nat)
| SessionSleep (seconds : Z)
| QuitCall (id : nat) (returned : bool)
| LogFatal (e : exn)
| LogClosing.

(** [self.driver], the calls made so far, and what the session did, newest
    first. *)
Record browser := Browser {
  driver : option nat;
  setups : nat;
  quit_calls : nat;
  session_log : list session_event
}.

(** [__init__]: [self.driver = None] *)
Definition new_browser : browser := Browser None 0 0 [].

Definition note (e : session_event) (b : browser) : browser :=
  Browser (driver b) (setups b) (quit_calls b) (e :: session_log b).

(** [_setup_driver]: the driver, or [None] when it logs and re-raises. *)
Definition setup_driver (senv : session_env) (b : browser) : option nat * browser :=
  let b1 := note LogInitializing b in
  if setup_ok senv (setups b1) then
    (Some (setups b1),
     Browser (driver b1) (S (setups b1)) (quit_calls b1)
       (DriverStarted (setups b1) :: session_log b1))
  else
    (None,
     Browser (driver b1) (S (setups b1)) (quit_calls b1)
       (LogSetupFailed :: session_log b1)).

Definition set_driver (d : option nat) (b : browser) : browser :=
  Browser d (setups b) (quit_calls b) (session_log b).

(** [self.driver.quit()] on the driver [d] *)
Definition quit_driver (senv : session_env) (d : nat) (b : browser) : bool * browser :=
  (quit_ok senv (quit_calls b),
   Browser (driver b) (setups b) (S (quit_calls b))
     (QuitCall d (quit_ok senv (quit_calls b)) :: session_log b)).

Inductive attempt_result := Return | FallThrough | Raise (e : exn).

(** The [try] block of one attempt, from [self.driver.get] on. *)
Definition login_form (senv : session_env) (attempt : nat) (d : nat) (b : browser)
  : attempt_result * browser :=
  let b1 := note (LoginPage d) b in
  match form senv attempt with
  | UrlChanged => (Return, note LogLoginSuccessful b1)
  | UrlSame => (FallThrough, b1)
  | FormRaises => (Raise FormError, b1)
  end.

(** The [try] block of one attempt. *)
Definition try_block (senv : session_env) (attempt : nat) (b : browser)
  : attempt_result * browser :=
  match driver b with
  | Some d => login_form senv attempt d b
  | None =>
      match setup_driver senv b with
      | (Some d, b1) => login_form senv attempt d (set_driver (Some d) b1)
      | (None, b1) => (Raise SetupError, b1)
      end
  end.

(** The [except Exception] block of one attempt: [Some] is the exception
    that leaves [login], [None] goes on with the next attempt. *)
Definition except_block (senv : session_env) (attempt : nat) (e : exn) (b : browser)
  : option exn * browser :=
  let b1 := note (LogAttemptFailed (attempt + 1) e) b in
  if (attempt =? MAX_RETRIES - 1)%nat then
    match driver b1 with
    | None => (Some NoDriver, b1)
    | Some d =>
        if screenshot_ok senv then (Some e, note (Screenshot d) b1)
        else (Some ScreenshotError, b1)
    end
  else
    let b2 := note (SessionSleep 2) b1 in
    match driver b2 with
    | None => (None, b2)
    | Some d =>
        let '(ok, b3) := quit_driver senv d b2 in
        if ok then (None, set_driver None b3) else (Some QuitError, b3)
    end.

(** [for attempt in ...] *)
Fixpoint login_from (senv : session_env) (attempts : list nat) (b : browser)
  : option exn * browser :=
  match attempts with
  | [] => (None, b)
  | attempt :: rest =>
      match try_block senv attempt b with
      | (Return, b1) => (None, b1)
      | (FallThrough, b1) => login_from senv rest b1
      | (Raise e, b1) =>
          match except_block senv attempt e b1 with
          | (Some e', b2) => (Some e', b2)
          | (None, b2) => login_from senv rest b2
          end
      end
  end.

Definition login (senv : session_env) (b : browser) : option exn * browser :=
  login_from senv (seq 0 MAX_RETRIES) (note LogLoginStarting b).

(** The [finally] block of [run]. *)
Definition finally_block (senv : session_env) (b : browser) : option exn * browser :=
  match driver b with
  | None => (None, b)
  | Some d =>
      let '(ok, b1) := quit_driver senv d (note LogClosing b) in
      (if ok then None else Some QuitError, b1)
  end.

(** [run]: the exception that leaves it, if any, the browser and the world.
    [None] says that [fetch_submissions] has not left its loop. *)
Definition run (fuel : nat) (senv : session_env) (env : os_env)
    (feed : nat → Z → response) (sched : nat → list nat)
    (b : browser) (w : world) : option (option exn * browser * world) :=
  match login senv b with
  | (Some e, b1) =>
      let '(q, b2) := finally_block senv (note (LogFatal e) b1) in
      Some (Some (default e q), b2, w)
  | (None, b1) =>
      match fetch_submissions fuel env feed sched w with
      | None => None
      | Some s =>
          let '(q, b2) := finally_block senv b1 in
          Some (q, b2, now s)
      end
  end.

(** ** Reading the trace *)

Definition is_get (e : event) : bool :=
  match e with Get _ => true | _ => false end.

Definition is_detail_write (e : event) : bool :=
  match e with DetailWrite _ _ _ => true | _ => false end.

Definition is_export_of (slug : string) (e : event) : bool :=
  match e with
  | AcceptedWrite s _ _ => bool_decide (s = slug)
  | _ => false
  end.

(** The offsets requested, oldest first. *)
Definition requested (tr : list event) : list Z :=
  rev (omap (fun e => match e with Get o => Some o | _ => None end) tr).

Definition exports_of (slug : string) (tr : list event) : list event :=
  filter (fun e => is_export_of slug e = true) tr.

Definition detail_writes (tr : list event) : list event :=
  filter (fun e => is_detail_write e = true) tr.

(** ** Notions used in the properties *)

#[global] Instance outcome_eq_dec : EqDecision outcome.
Proof. solve_decision. Defined.

(** The world in which the detail file of [sub] has just been written. *)
Definition after_detail (r : raw_submission) (sub : Submission) (w w2 : world) : Prop :=
  ∃ w1, (w1 = w ∨ w1 = make_dir (title_slug sub) w)
        ∧ w2 = put_detail sub (Complete r) w1.

Definition run_batches (env : os_env)
    (batches : list (list nat * list raw_submission)) (w : world) : world :=
  fold_left (fun w b => run_batch env b.1 b.2 w) batches w.







(** ⌈K / BATCH_SIZE⌉ *)
Definition pages_before (K : Z) : Z := (K + BATCH_SIZE - 1) / BATCH_SIZE.

(** The offsets [o], [o + BATCH_SIZE], ... ([n] of them). *)
Fixpoint offsets_from (o : Z) (n : nat) : list Z :=
  match n with
  | O => []
  | S n' => o :: offsets_from (o + BATCH_SIZE) n'
  end.

Definition is_fetch_error (r : response) : bool :=
  match r with
  | Page _ => false
  | _ => true
  end.

(** What a turn that ends in one of the [except] branches adds to the trace
    (newest first). *)
Definition retry_events (r : response) (o : Z) : list event :=
  match r with
  | TransportError => [Sleep 5; LogFetchError o; Get o]
  | PageError => [Sleep 5; LogFetchError o; Sleep 2; Get o]
  | NotJson => [Sleep 5; LogJsonError o; Sleep 2; Get o]
  | Page _ => []
  end.



Definition detail_key (sub : Submission) : string * Z :=
  (title_slug sub, timestamp sub).



(** Detail files stay and folders appear only where [mkdir] is allowed. *)
Definition disk_grows (env : os_env) (d d' : disk) : Prop :=
  (∀ k, is_Some (detail_files d !! k) → is_Some (detail_files d' !! k))
  ∧ (∀ slug, slug ∈ dirs d' → slug ∈ dirs d ∨ mkdir_ok env slug = true).








(** An invariant of a pool: [I] holds of the world, [P] of every worker,
    [R] of every queued record. *)
Definition pool_inv (I : world → Prop) (P : world → pc → Prop)
    (R : world → raw_submission → Prop) (pw : pool * world) : Prop :=
  I pw.2 ∧ Forall (P pw.2) (workers pw.1) ∧ Forall (R pw.2) (queue pw.1).

(** A Unicode scalar value: a code point that is not a surrogate. *)
Definition is_scalar_value (c : Z) : bool :=
  (0 <=? c) && (c <? 0x110000) && negb ((0xD800 <=? c) && (c <=? 0xDFFF)).


(** Every accepted write in the trace (newest first) has an older detail
    write of the same slug. *)
Fixpoint exports_follow_details (tr : list event) : Prop :=
  match tr with
  | [] => True
  | AcceptedWrite s _ _ :: tr' =>
      (∃ t c, DetailWrite s t c ∈ tr') ∧ exports_follow_details tr'
  | _ :: tr' => exports_follow_details tr'
  end.

(** A worker past the dump has logged its detail write. *)
Definition pc_detail_logged (w : world) (p : pc) : Prop :=
  match p with
  | At LCheck _ sub | At LAdd _ sub | At LExport _ sub =>
      ∃ c, DetailWrite (title_slug sub) (timestamp sub) c ∈ trace w
  | _ => True
  end.



(** Nothing of [w] is missing in [w']: folders, detail files, the names in
    the accepted directory, the slugs of the set. *)
Definition nothing_removed (w w' : world) : Prop :=
  dirs (fs w) ⊆ dirs (fs w')
  ∧ (∀ k, is_Some (detail_files (fs w) !! k) → is_Some (detail_files (fs w') !! k))
  ∧ (∀ n, is_Some (accepted_files (fs w) !! n)
          → is_Some (accepted_files (fs w') !! n))
  ∧ accepted_slugs w ⊆ accepted_slugs w'.

(** The offsets of the batches handed to the pool, oldest first. *)
Definition processed (tr : list event) : list Z :=
  rev (omap (fun e => match e with LogProcessing _ o => Some o | _ => None end) tr).

(** Going back in time from the newest event, a sleep of two seconds or more
    comes before any request. *)
Fixpoint slept (tr : list event) : Prop :=
  match tr with
  | [] => True
  | Sleep n :: _ => 2 ≤ n
  | Get _ :: _ => False
  | _ :: tr' => slept tr'
  end.

(** Every request but the oldest comes after a sleep that follows the
    request before it. *)
Fixpoint polite (tr : list event) : Prop :=
  match tr with
  | [] => True
  | Get _ :: tr' => slept tr' ∧ polite tr'
  | _ :: tr' => polite tr'
  end.

(** A record that some answer of the feed holds. *)
Definition served (feed : nat → Z → response) (r : raw_submission) : Prop :=
  ∃ n o l, feed n o = Page (Some l) ∧ r ∈ l.

(** A write that comes from a record in [A]: a detail write holds the record
    it is filed under, or is cut short because the code of that record cannot
    be encoded; an accepted write is named after an accepted record and holds
    the bytes of its code. *)
Definition written_from (A : raw_submission → Prop) (e : event) : Prop :=
  match e with
  | DetailWrite s t c =>
      ∃ r sub, A r ∧ mk_submission r = Some sub
               ∧ s = title_slug sub ∧ t = timestamp sub
               ∧ (c = Complete r ∨ (c = Partial ∧ text_bytes (code sub) = None))
  | AcceptedWrite s n bytes =>
      ∃ r sub, A r ∧ mk_submission r = Some sub ∧ is_accepted sub = true
               ∧ s = title_slug sub ∧ n = accepted_name sub
               ∧ text_bytes (code sub) = Some bytes
  | _ => True
  end.

(** A worker whose record is in [A]; past the dump the code of the record
    can be encoded, and before the [add] and the accepted write the record is
    an accepted one. *)
Definition pc_written_from (A : raw_submission → Prop) (p : pc) : Prop :=
  match p with
  | Start r => A r
  | At l r sub =>
      A r ∧ mk_submission r = Some sub
      ∧ match l with
        | LMkdir | LDump => True
        | LCheck => is_Some (text_bytes (code sub))
        | LAdd | LExport =>
            is_Some (text_bytes (code sub)) ∧ is_accepted sub = true
        end
  | _ => True
  end.

(** Every driver that was started is the one held, or its [quit] returned. *)
Definition drivers_accounted (b : browser) : Prop :=
  ∀ id, DriverStarted id ∈ session_log b →
        driver b = Some id ∨ QuitCall id true ∈ session_log b.

(** Whenever a driver was started, [quit] had returned for every driver
    started before it. *)
Fixpoint one_at_a_time (tr : list session_event) : Prop :=
  match tr with
  | [] => True
  | DriverStarted _ :: tr' =>
      (∀ id, DriverStarted id ∈ tr' → QuitCall id true ∈ tr') ∧ one_at_a_time tr'
  | _ :: tr' => one_at_a_time tr'
  end.

Definition session_inv (b : browser) : Prop :=
  drivers_accounted b ∧ one_at_a_time (session_log b).

(** ** Sample data *)

Module Samples.


Definition permissive : os_env :=
  OsEnv (fun _ => true) (fun _ _ => true) (fun _ => true).

Definition empty_disk : disk := Disk ∅ ∅ ∅.

(** "héllo€😀" as a C++ comment would carry it. *)
Definition two_sum_cpp : raw_submission :=
  RawSubmission (Some "two-sum"%string) (Some "cpp"%string) (Some 1700000100)
    (Some "Accepted"%string) (Some [104; 233; 108; 108; 111; 8364; 128512]).

Definition two_sum_py : raw_submission :=
  RawSubmission (Some "two-sum"%string) (Some "python3"%string) (Some 1700000200)
    (Some "Accepted"%string) (Some [112; 97; 115; 115; 10]).

Definition two_sum_foobar : raw_submission :=
  RawSubmission (Some "two-sum"%string) (Some "foobar"%string) (Some 1700000300)
    (Some "Accepted"%string) (Some [49]).

Definition sub_of (r : raw_submission) : Submission :=
  default (MkSubmission "" "" 0 "" []) (mk_submission r).

Definition two_sum_cpp_old : raw_submission :=
  RawSubmission (Some "two-sum"%string) (Some "cpp"%string) (Some 1600000000)
    (Some "Accepted"%string) (Some [111; 108; 100]).
Definition both_pass_the_check : list nat := [0; 1; 0; 1; 0; 1; 0; 1; 0; 1]%nat.


(** One page with one record, then nothing. *)
Definition one_page (n : nat) (o : Z) : response :=
  if o <? 20 then Page (Some [two_sum_cpp]) else Page (Some []).
Definition serial (n : nat) : list nat := [].

Definition first_run : fetch_state :=
  default (FetchState 0 0 (fresh_run empty_disk))
    (fetch_submissions 2 permissive one_page
       serial (fresh_run empty_disk)).

End Samples.

Module MoreSamples.

(** A record without the key 'code', and one without any key. *)
Definition no_code : raw_submission :=
  RawSubmission (Some "two-sum"%string) (Some "cpp"%string) (Some 1700000400)
    (Some "Accepted"%string) None.
Definition no_keys : raw_submission :=
  RawSubmission None None None None None.
(** A submission that was not accepted. *)
Definition two_sum_wrong : raw_submission :=
  RawSubmission (Some "two-sum"%string) (Some "cpp"%string) (Some 1700000500)
    (Some "Wrong Answer"%string) (Some [120]).
(** A code body with a lone surrogate, as ["\ud800"] decodes to. *)
Definition two_sum_surrogate : raw_submission :=
  RawSubmission (Some "two-sum"%string) (Some "cpp"%string) (Some 1700000600)
    (Some "Accepted"%string) (Some [47; 47; 55296]).
(** Two answers that are not JSON, then the feed of one page. *)
Definition flaky (n : nat) (o : Z) : response :=
  if (n <? 2)%nat then NotJson else Samples.one_page n o.
(** Chrome starts, the form fails twice and then goes through. *)
Definition third_time_lucky : session_env :=
  SessionEnv (fun _ => true)
             (fun n => if (n <? 2)%nat then FormRaises else UrlChanged)
             true (fun _ => true).
(** Chrome cannot be started. *)
Definition no_chrome : session_env :=
  SessionEnv (fun _ => false) (fun _ => UrlChanged) true (fun _ => true).
(** The browser after a run that logs in at the third attempt and finds one
    page. *)
Definition lucky_browser : browser :=
  match run 2 third_time_lucky Samples.permissive Samples.one_page
          Samples.serial new_browser (fresh_run Samples.empty_disk) with
  | Some (_, b, _) => b
  | None => new_browser
  end.
End MoreSamples.

(** * Properties *)

(** ** The codec *)

Lemma land_shifted_low a b n :
  0 <= n -> 0 <= b < 2 ^ n -> Z.land (a * 2 ^ n) b = 0.
Proof.
  intros Hn Hb. apply Z.bits_inj'. intros m Hm.
  rewrite Z.land_spec, Z.bits_0.
  destruct (Z.lt_ge_cases m n) as [Hlt | Hge].
  - rewrite Z.mul_pow2_bits_low by lia. reflexivity.
  - destruct (Z.eq_dec b 0) as [-> | Hne].
    + rewrite Z.bits_0. apply andb_false_r.
    + rewrite (Z.bits_above_log2 b m); [apply andb_false_r | lia |].
      apply Z.lt_le_trans with n; [| lia].
      apply Z.log2_lt_pow2; lia.
Qed.

Lemma lor_shifted_low a b n :
  0 <= n -> 0 <= b < 2 ^ n -> Z.lor (a * 2 ^ n) b = a * 2 ^ n + b.
Proof.
  intros Hn Hb. symmetry. apply Z.add_nocarry_lor. now apply land_shifted_low.
Qed.

Lemma lor_C0 h : 0 <= h < 32 -> Z.lor 0xC0 h = 192 + h.
Proof. intros. change 0xC0 with (3 * 2 ^ 6). rewrite lor_shifted_low; lia. Qed.
Lemma lor_E0 h : 0 <= h < 16 -> Z.lor 0xE0 h = 224 + h.
Proof. intros. change 0xE0 with (7 * 2 ^ 5). rewrite lor_shifted_low; lia. Qed.
Lemma lor_F0 h : 0 <= h < 8 -> Z.lor 0xF0 h = 240 + h.
Proof. intros. change 0xF0 with (15 * 2 ^ 4). rewrite lor_shifted_low; lia. Qed.
Lemma lor_80 l : 0 <= l < 64 -> Z.lor 0x80 l = 128 + l.
Proof. intros. change 0x80 with (1 * 2 ^ 7). rewrite lor_shifted_low; lia. Qed.
Lemma land_3F a : Z.land a 0x3F = a mod 64.
Proof. change 0x3F with (Z.ones 6). now rewrite Z.land_ones. Qed.
Lemma shr6 a : Z.shiftr a 6 = a / 64.
Proof. now rewrite Z.shiftr_div_pow2. Qed.
Lemma shr12 a : Z.shiftr a 12 = a / 4096.
Proof. now rewrite Z.shiftr_div_pow2. Qed.
Lemma shr18 a : Z.shiftr a 18 = a / 262144.
Proof. now rewrite Z.shiftr_div_pow2. Qed.












Ltac dm := Z.div_mod_to_equations; lia.



(** ** The text layer *)

Lemma translate_newlines_posix s : translate_newlines os_linesep s = s.
Proof.
  induction s as [| c s IH]; [reflexivity |].
  cbn [translate_newlines flat_map]. fold (translate_newlines os_linesep s).
  rewrite IH. unfold os_linesep. destruct (Z.eqb_spec c 10) as [-> |]; reflexivity.
Qed.

Lemma text_bytes_utf8 s : text_bytes s = utf8_encode s.
Proof. unfold text_bytes. now rewrite translate_newlines_posix. Qed.


(** ** One worker alone runs [process_submission] *)

Lemma run_worker_finished n env o w :
  run_worker n env (Finished o) w = (Finished o, w).
Proof. induction n as [| n IH]; [reflexivity |]. cbn. apply IH. Qed.


Lemma run_worker_S n env p w :
  run_worker (S n) env p w =
  let '(p', w') := worker_step env p w in run_worker n env p' w'.
Proof. reflexivity. Qed.

Lemma run_worker_check n env r sub w :
  run_worker (3 + n) env (At LCheck r sub) w =
  let '(o, w') := export_accepted env r sub w in (Finished o, w').
Proof.
  unfold export_accepted.
  change (3 + n)%nat with (S (S (S n))).
  rewrite run_worker_S. cbn [worker_step].
  destruct (is_accepted sub && negb (bool_decide (title_slug sub ∈ accepted_slugs w)));
    [| apply run_worker_finished].
  rewrite run_worker_S. cbn [worker_step].
  rewrite run_worker_S. cbn [worker_step].
  replace (accepted_slugs (add_slug (title_slug sub) w)) with
    ({[title_slug sub]} ∪ accepted_slugs w) by reflexivity.
  destruct (accepted_open_ok env (accepted_name sub));
    [| apply run_worker_finished].
  destruct (text_bytes (code sub)); apply run_worker_finished.
Qed.

Lemma run_worker_dump n env r sub w :
  run_worker (4 + n) env (At LDump r sub) w =
  if detail_open_ok env (title_slug sub) (timestamp sub)
  then match text_bytes (code sub) with
       | Some _ =>
           let '(o, w') :=
             export_accepted env r sub (put_detail sub (Complete r) w) in
           (Finished o, w')
       | None => handler r (put_detail sub Partial w)
       end
  else handler r w.
Proof.
  change (4 + n)%nat with (S (3 + n)). rewrite run_worker_S. cbn [worker_step].
  destruct (detail_open_ok env (title_slug sub) (timestamp sub));
    [| apply run_worker_finished].
  destruct (text_bytes (code sub)); [| apply run_worker_finished].
  apply run_worker_check.
Qed.

Lemma run_worker_process env r w :
  run_worker 6 env (Start r) w =
  let '(o, w') := process_submission env r w in (Finished o, w').
Proof.
  unfold process_submission.
  rewrite run_worker_S. cbn [worker_step].
  destruct (mk_submission r) as [sub |]; [| apply run_worker_finished].
  destruct (json_exists sub w); [apply run_worker_finished |].
  rewrite run_worker_S. cbn [worker_step].
  destruct (bool_decide (title_slug sub ∈ dirs (fs w))).
  - rewrite (run_worker_dump 0).
    destruct (detail_open_ok env (title_slug sub) (timestamp sub)); [| reflexivity].
    destruct (text_bytes (code sub)); reflexivity.
  - destruct (mkdir_ok env (title_slug sub)); [| apply run_worker_finished].
    rewrite (run_worker_dump 0).
    destruct (detail_open_ok env (title_slug sub) (timestamp sub)); [| reflexivity].
    destruct (text_bytes (code sub)); reflexivity.
Qed.



(** ** What one record does to the world *)

(** The only way to the outcome [DetailAndAccepted]. *)
Lemma process_exported env r w w' :
  process_submission env r w = (DetailAndAccepted, w') →
  ∃ sub bytes w2,
    mk_submission r = Some sub
    ∧ json_exists sub w = false
    ∧ after_detail r sub w w2
    ∧ is_accepted sub = true
    ∧ (title_slug sub ∉ accepted_slugs w)
    ∧ text_bytes (code sub) = Some bytes
    ∧ w' = log (LogSaved (title_slug sub))
             (put_accepted (title_slug sub) (accepted_name sub) bytes
                (add_slug (title_slug sub) w2)).
Proof.
  unfold process_submission, export_accepted, dropped.
  destruct (mk_submission r) as [sub |]; [| discriminate].
  destruct (json_exists sub w) eqn:Hex; [discriminate |].
  destruct (bool_decide (title_slug sub ∈ dirs (fs w)));
    [| destruct (mkdir_ok env (title_slug sub)); [| discriminate]].
  all: destruct (detail_open_ok env (title_slug sub) (timestamp sub));
    [| discriminate].
  all: destruct (text_bytes (code sub)) as [bytes |] eqn:Hbytes; [| discriminate].
  all: destruct (is_accepted sub) eqn:Hacc; cbn [andb]; [| discriminate].
  all: cbn [accepted_slugs put_detail make_dir].
  all: destruct (bool_decide (title_slug sub ∈ accepted_slugs w)) eqn:Hin;
    cbn [negb]; [discriminate |].
  all: destruct (accepted_open_ok env (accepted_name sub)); [| discriminate].
  all: intros [= <-]; apply bool_decide_eq_false in Hin.
  - exists sub, bytes, (put_detail sub (Complete r) w).
    split_and!; try done. exists w. auto.
  - exists sub, bytes, (put_detail sub (Complete r) (make_dir (title_slug sub) w)).
    split_and!; try done. exists (make_dir (title_slug sub) w). auto.
Qed.

Lemma exports_of_cons slug e tr :
  exports_of slug (e :: tr) =
  if is_export_of slug e then e :: exports_of slug tr else exports_of slug tr.
Proof.
  unfold exports_of. rewrite filter_cons.
  destruct (is_export_of slug e); [rewrite decide_True | rewrite decide_False]; done.
Qed.

(** ** The name of the accepted file *)

Example extension_of_foobar : extension_of "foobar" = "foobar"%string.
Proof. reflexivity. Qed.

Example extension_of_python3 : extension_of "python3" = "py"%string.
Proof. reflexivity. Qed.

(** C8. Whenever a record is exported, the file written in the accepted
    directory is named by the slug, a dot and the extension: the raw language
    identifier when the language is not a key of [LANG_EXTENSIONS], the
    mapped extension when it is. *)
Theorem accepted_file_name env r sub w w' :
  mk_submission r = Some sub →
  process_submission env r w = (DetailAndAccepted, w') →
  ∃ name bytes,
    exports_of (title_slug sub) (trace w')
      = AcceptedWrite (title_slug sub) name bytes
          :: exports_of (title_slug sub) (trace w)
    ∧ accepted_files (fs w') !! name = Some bytes
    ∧ (LANG_EXTENSIONS !! lang sub = None →
       name = (title_slug sub +:+ "." +:+ lang sub)%string)
    ∧ (∀ ext, LANG_EXTENSIONS !! lang sub = Some ext →
       name = (title_slug sub +:+ "." +:+ ext)%string).
Proof.
  intros Hsub Hp.
  destruct (process_exported _ _ _ _ Hp)
    as (sub' & bytes & w2 & Hsub' & _ & (w1 & Hw1 & ->) & _ & _ & _ & ->).
  assert (sub' = sub) as -> by congruence.
  exists (accepted_name sub), bytes. split; [| split; [| split]].
  - cbn [trace log put_accepted add_slug put_detail].
    rewrite !exports_of_cons. cbn [is_export_of].
    rewrite bool_decide_eq_true_2 by reflexivity.
    destruct Hw1 as [-> | ->]; reflexivity.
  - cbn [fs log put_accepted accepted_files]. apply lookup_insert_eq.
  - intros Hnone. unfold accepted_name, extension_of. now rewrite Hnone.
  - intros ext Hext. unfold accepted_name, extension_of. now rewrite Hext.
Qed.

Lemma accepted_file_name_witness :
  ∃ name bytes,
    exports_of "two-sum"
      (trace (process_submission Samples.permissive Samples.two_sum_foobar
                (fresh_run Samples.empty_disk)).2)
      = AcceptedWrite "two-sum" name bytes :: []
    ∧ accepted_files
        (fs (process_submission Samples.permissive Samples.two_sum_foobar
               (fresh_run Samples.empty_disk)).2) !! name = Some bytes
    ∧ (LANG_EXTENSIONS !! "foobar"%string = None →
       name = "two-sum.foobar"%string)
    ∧ (∀ ext, LANG_EXTENSIONS !! "foobar"%string = Some ext →
       name = ("two-sum" +:+ "." +:+ ext)%string).
Proof.
  apply (accepted_file_name Samples.permissive Samples.two_sum_foobar
           (Samples.sub_of Samples.two_sum_foobar)
           (fresh_run Samples.empty_disk)).
  - reflexivity.
  - vm_compute. reflexivity.
Defined.

(** ** The bytes of the accepted file *)



(** ** A slug in the dedup set is never exported again *)





Lemma exec_cons env i sched pw :
  exec env (i :: sched) pw = exec env sched (pool_step env pw i).
Proof. reflexivity. Qed.





(** ** A record whose detail file is on disk *)

(** C7. A record whose detail file exists is left after the existence check:
    the disk and the dedup set stay as they are and nothing is exported, also
    when the record is accepted and its slug is not in the set; so a scraper
    started over the files of an earlier run does not learn from such a
    record that its problem has an accepted solution. *)
Theorem persisted_record_is_skipped env r sub w :
  mk_submission r = Some sub →
  json_exists sub w = true →
  worker_step env (Start r) w
    = (Finished Skip, log (LogSkipping (title_slug sub)) w)
  ∧ process_submission env r w = (Skip, log (LogSkipping (title_slug sub)) w)
  ∧ fs (process_submission env r w).2 = fs w
  ∧ accepted_slugs (process_submission env r w).2 = accepted_slugs w
  ∧ exports_of (title_slug sub) (trace (process_submission env r w).2)
      = exports_of (title_slug sub) (trace w)
  ∧ (title_slug sub ∉ accepted_slugs w →
     title_slug sub ∉ accepted_slugs (process_submission env r w).2).
Proof.
  intros Hsub Hex.
  assert (process_submission env r w
          = (Skip, log (LogSkipping (title_slug sub)) w)) as Hp
    by (unfold process_submission; now rewrite Hsub, Hex).
  split_and!; rewrite ?Hp; try done.
  cbn [worker_step]. now rewrite Hsub, Hex.
Qed.

Lemma persisted_record_is_skipped_witness :
  let w := fresh_run
             (fs (process_submission Samples.permissive Samples.two_sum_cpp
                    (fresh_run Samples.empty_disk)).2) in
  worker_step Samples.permissive (Start Samples.two_sum_cpp) w
    = (Finished Skip, log (LogSkipping "two-sum") w)
  ∧ process_submission Samples.permissive Samples.two_sum_cpp w
    = (Skip, log (LogSkipping "two-sum") w)
  ∧ fs (process_submission Samples.permissive Samples.two_sum_cpp w).2 = fs w
  ∧ accepted_slugs (process_submission Samples.permissive Samples.two_sum_cpp w).2
    = accepted_slugs w
  ∧ exports_of "two-sum"
      (trace (process_submission Samples.permissive Samples.two_sum_cpp w).2)
      = exports_of "two-sum" (trace w)
  ∧ ("two-sum"%string ∉ accepted_slugs w →
     "two-sum"%string ∉
       accepted_slugs (process_submission Samples.permissive Samples.two_sum_cpp w).2).
Proof.
  intros w.
  apply (persisted_record_is_skipped Samples.permissive Samples.two_sum_cpp
           (Samples.sub_of Samples.two_sum_cpp) w).
  - reflexivity.
  - vm_compute. reflexivity.
Defined.

(** ** An accepted write that fails *)




(** ** Two workers on the same problem *)

(** C2 (what the code does).  Two accepted records of one problem in one
    batch, workers 0 and 1 moving in turn: both evaluate the test of line 297
    before either runs the [add] of line 298, and both write an accepted
    file.  The set ends with one entry, the accepted directory with two files
    of the problem. *)
Theorem race_two_exports :
  let w := run_batch Samples.permissive Samples.both_pass_the_check
             [Samples.two_sum_cpp; Samples.two_sum_py]
             (fresh_run Samples.empty_disk) in
  (exec Samples.permissive Samples.both_pass_the_check
     (init_pool [Samples.two_sum_cpp; Samples.two_sum_py],
      fresh_run Samples.empty_disk)).1
    = Pool [] [At LAdd Samples.two_sum_cpp (Samples.sub_of Samples.two_sum_cpp);
               At LAdd Samples.two_sum_py (Samples.sub_of Samples.two_sum_py);
               Idle; Idle]
  ∧ length (exports_of "two-sum" (trace w)) = 2%nat
  ∧ elements (accepted_slugs w) = ["two-sum"%string]
  ∧ is_Some (accepted_files (fs w) !! "two-sum.cpp"%string)
  ∧ is_Some (accepted_files (fs w) !! "two-sum.py"%string).
Proof.
  cbv zeta. split_and!.
  - vm_compute. reflexivity.
  - vm_compute. reflexivity.
  - vm_compute. reflexivity.
  - vm_compute. eexists. reflexivity.
  - vm_compute. eexists. reflexivity.
Qed.

(** With the same language the two writes go to one file, and the file keeps
    what the second writer wrote. *)
Example race_same_file :
  let w := run_batch Samples.permissive Samples.both_pass_the_check
             [Samples.two_sum_cpp; Samples.two_sum_cpp_old]
             (fresh_run Samples.empty_disk) in
  length (exports_of "two-sum" (trace w)) = 2%nat
  ∧ accepted_files (fs w) !! "two-sum.cpp"%string = Some [111; 108; 100].
Proof. cbv zeta. split; vm_compute; reflexivity. Qed.

(** Case analysis on the statement a worker runs and on what it finds. *)
Ltac step_cases p :=
  destruct p as [| ?r | [] ?r ?sub | ?o]; cbn [worker_step]; unfold handler;
  repeat match goal with
    | |- context [match mk_submission ?r with _ => _ end] =>
        destruct (mk_submission r) eqn:?
    | |- context [json_exists ?s ?w] => destruct (json_exists s w) eqn:?
    | |- context [mkdir_ok ?e ?s] => destruct (mkdir_ok e s) eqn:?
    | |- context [detail_open_ok ?e ?s ?t] => destruct (detail_open_ok e s t) eqn:?
    | |- context [accepted_open_ok ?e ?n] => destruct (accepted_open_ok e n) eqn:?
    | |- context [match text_bytes ?c with _ => _ end] =>
        destruct (text_bytes c) eqn:?
    | |- context [is_accepted ?s] => destruct (is_accepted s) eqn:?
    | |- context [bool_decide ?P] => destruct (bool_decide_reflect P)
    end;
  cbn [andb negb fst snd].


(** ** Properties of the world that every statement keeps *)

Section Lift.
Variable env : os_env.
Variable I : world → Prop.
Hypothesis step : ∀ p w, I w → I (worker_step env p w).2.

Lemma lift_run_worker n p w : I w → I (run_worker n env p w).2.
Proof.
  revert p w. induction n as [| n IH]; intros p w Hw; [done |].
  rewrite run_worker_S. specialize (step p w Hw).
  destruct (worker_step env p w) as [p' w']. now apply IH.
Qed.

Lemma lift_process_submission r w : I w → I (process_submission env r w).2.
Proof.
  intros Hw. pose proof (lift_run_worker 6 (Start r) w Hw) as H.
  rewrite run_worker_process in H. now destruct (process_submission env r w).
Qed.


Lemma lift_pool_step pw i : I pw.2 → I (pool_step env pw i).2.
Proof.
  intros Hw. unfold pool_step.
  destruct (workers pw.1 !! i) as [p |]; [| done].
  destruct (is_idle p); [destruct (queue pw.1); done |].
  specialize (step p pw.2 Hw). now destruct (worker_step env p pw.2).
Qed.

Lemma lift_exec sched pw : I pw.2 → I (exec env sched pw).2.
Proof.
  revert pw. induction sched as [| i sched IH]; intros pw Hw; [done |].
  rewrite exec_cons. apply IH. now apply lift_pool_step.
Qed.

Lemma lift_drain pw : I pw.2 → I (drain env pw).
Proof.
  intros Hw. unfold drain.
  assert (∀ rs w, I w →
            I (fold_left (fun w r => (process_submission env r w).2) rs w)) as Hq.
  { induction rs as [| r rs IH]; intros w H; [done |].
    cbn [fold_left]. apply IH. now apply lift_process_submission. }
  apply Hq. generalize (workers pw.1) pw.2 Hw.
  induction l as [| p ps IH]; intros w H; [done |].
  cbn [fold_left]. apply IH. now apply lift_run_worker.
Qed.

Lemma lift_run_batch sched rs w : I w → I (run_batch env sched rs w).
Proof. intros Hw. unfold run_batch. apply lift_drain. now apply lift_exec. Qed.

Lemma lift_run_batches batches w : I w → I (run_batches env batches w).
Proof.
  revert w. induction batches as [| b batches IH]; intros w Hw; [done |].
  cbn [run_batches fold_left]. apply IH. now apply lift_run_batch.
Qed.
End Lift.

(** ** The accepted directory follows the trace *)


(** ** Records handled one after the other *)








(** ** What the outcome of a record tells *)





(** ** Position in a run handled record by record *)

Section Positions.
Context (env : os_env) (rs : list raw_submission) (w : world).

Let os := (process_all env rs w).1.




End Positions.


(** ** One export per problem in a run handled record by record *)



(** ** The accepted directory after a run *)





(** ** The requests of the loop *)

Lemma requested_cons e tr :
  requested (e :: tr) =
  requested tr ++ match e with Get o => [o] | _ => [] end.
Proof.
  unfold requested. destruct e; cbn [omap list_omap]; rewrite ?app_nil_r; try done.
Qed.


Lemma worker_step_requested env p w :
  requested (trace (worker_step env p w).2) = requested (trace w).
Proof.
  step_cases p; try done;
    cbn [trace log put_detail put_accepted add_slug make_dir];
    rewrite ?requested_cons, ?app_nil_r; done.
Qed.

Lemma run_batch_requested env sched rs w :
  requested (trace (run_batch env sched rs w)) = requested (trace w).
Proof.
  apply (lift_run_batch env (fun w' => requested (trace w') = requested (trace w)));
    [| done].
  intros p w' Hw'. now rewrite worker_step_requested.
Qed.

Lemma fetch_loop_S fuel env feed sched s :
  fetch_loop (S fuel) env feed sched s =
  if (fetch_turn env feed sched s).1 then Some (fetch_turn env feed sched s).2
  else fetch_loop fuel env feed sched (fetch_turn env feed sched s).2.
Proof. cbn [fetch_loop]. now destruct (fetch_turn env feed sched s). Qed.

Lemma fetch_turn_page env feed sched s r rs :
  feed (calls s) (offset s) = Page (Some (r :: rs)) →
  fetch_turn env feed sched s =
  (false,
   FetchState (offset s + BATCH_SIZE) (S (calls s))
     (run_batch env (sched (calls s)) (r :: rs)
        (log (LogProcessing (length (r :: rs)) (offset s))
           (log (Sleep 2) (log (Get (offset s)) (now s)))))).
Proof. intros H. unfold fetch_turn. now rewrite H. Qed.

Lemma fetch_turn_empty env feed sched s dump :
  feed (calls s) (offset s) = Page dump → default [] dump = [] →
  fetch_turn env feed sched s =
  (true,
   FetchState (offset s) (S (calls s))
     (log LogNoMore (log (Sleep 2) (log (Get (offset s)) (now s))))).
Proof. intros H Hd. unfold fetch_turn. now rewrite H, Hd. Qed.

Lemma fetch_turn_error env feed sched s :
  is_fetch_error (feed (calls s) (offset s)) = true →
  fetch_turn env feed sched s =
  (false,
   FetchState (offset s) (S (calls s))
     (World (fs (now s)) (accepted_slugs (now s))
        (retry_events (feed (calls s) (offset s)) (offset s) ++ trace (now s)))).
Proof.
  intros H. unfold fetch_turn.
  destruct (feed (calls s) (offset s)); try discriminate; reflexivity.
Qed.

Lemma pages_before_spec K :
  0 ≤ K →
  0 ≤ pages_before K
  ∧ (pages_before K - 1) * BATCH_SIZE < K ≤ pages_before K * BATCH_SIZE.
Proof.
  intros HK. unfold pages_before, BATCH_SIZE. Z.div_mod_to_equations. lia.
Qed.

(** From page [i] on, the loop makes one request per remaining page and one
    more, which finds the empty batch. *)
Lemma fetch_loop_pages env feed sched K m :
  0 ≤ K →
  (∀ n o, 0 ≤ o < K → ∃ l, feed n o = Page (Some l) ∧ l ≠ []) →
  (∀ n, ∃ dump, feed n (pages_before K * BATCH_SIZE) = Page dump
                ∧ default [] dump = []) →
  ∀ s,
    0 ≤ offset s →
    offset s + Z.of_nat m * BATCH_SIZE = pages_before K * BATCH_SIZE →
    ∃ s',
      (∀ fuel, (m < fuel)%nat → fetch_loop fuel env feed sched s = Some s')
      ∧ (∀ fuel, (fuel ≤ m)%nat → fetch_loop fuel env feed sched s = None)
      ∧ calls s' = (calls s + m + 1)%nat
      ∧ offset s' = pages_before K * BATCH_SIZE
      ∧ requested (trace (now s'))
        = requested (trace (now s)) ++ offsets_from (offset s) (m + 1).
Proof.
  intros HK Hfull Hempty.
  destruct (pages_before_spec K HK) as [Hc0 Hc].
  induction m as [| m IH]; intros s Ho Hm.
  - destruct (Hempty (calls s)) as (dump & Hfeed & Hd).
    assert (offset s = pages_before K * BATCH_SIZE) as Hoff by lia.
    rewrite <- Hoff in Hfeed.
    pose proof (fetch_turn_empty env feed sched s dump Hfeed Hd) as Hturn.
    eexists. split_and!.
    + intros [| fuel] Hfuel; [lia |]. rewrite fetch_loop_S, Hturn. reflexivity.
    + intros fuel Hfuel. assert (fuel = 0%nat) as -> by lia. reflexivity.
    + cbn. lia.
    + cbn. exact Hoff.
    + cbn [snd now log trace]. rewrite !requested_cons, !app_nil_r. reflexivity.
  - assert (offset s < K) as HoK by (unfold BATCH_SIZE in *; lia).
    destruct (Hfull (calls s) (offset s)) as (l & Hfeed & Hl); [lia |].
    destruct l as [| r rs]; [done |].
    pose proof (fetch_turn_page env feed sched s r rs Hfeed) as Hturn.
    remember (FetchState (offset s + BATCH_SIZE) (S (calls s))
                (run_batch env (sched (calls s)) (r :: rs)
                   (log (LogProcessing (length (r :: rs)) (offset s))
                      (log (Sleep 2) (log (Get (offset s)) (now s))))))
      as s1 eqn:Hs1.
    assert (offset s1 = offset s + BATCH_SIZE ∧ calls s1 = S (calls s)
            ∧ requested (trace (now s1))
              = requested (trace (now s)) ++ [offset s]) as (Ho1 & Hc1 & Hr1).
    { subst s1. cbn [offset calls now]. split_and!; try done.
      rewrite run_batch_requested. cbn [log trace].
      rewrite !requested_cons, !app_nil_r. reflexivity. }
    destruct (IH s1) as (s' & Hsome & Hnone & Hcalls & Hoff & Hreq).
    { rewrite Ho1. unfold BATCH_SIZE. lia. }
    { rewrite Ho1. lia. }
    exists s'. split_and!.
    + intros [| fuel] Hfuel; [lia |]. rewrite fetch_loop_S, Hturn. cbn [fst snd].
      apply Hsome. lia.
    + intros [| fuel] Hfuel; [reflexivity |]. rewrite fetch_loop_S, Hturn.
      cbn [fst snd]. apply Hnone. lia.
    + rewrite Hcalls, Hc1. lia.
    + exact Hoff.
    + rewrite Hreq, Hr1, Ho1, <- app_assoc. reflexivity.
Qed.

(** C3 (as the code has it).  When the feed answers every offset below [K]
    with a batch that is not empty and the first requested offset from [K] on
    with an empty or absent list, the loop requests the offsets 0,
    [BATCH_SIZE], 2 [BATCH_SIZE], ... in turn, makes ⌈K / BATCH_SIZE⌉ + 1
    requests, the last of which finds the empty batch, and leaves then and
    not before. *)
Theorem pagination_fetch_calls env feed sched w K :
  0 ≤ K →
  (∀ n o, 0 ≤ o < K → ∃ l, feed n o = Page (Some l) ∧ l ≠ []) →
  (∀ n, ∃ dump, feed n (pages_before K * BATCH_SIZE) = Page dump
                ∧ default [] dump = []) →
  ∃ s',
    (∀ fuel, (Z.to_nat (pages_before K) < fuel)%nat →
             fetch_submissions fuel env feed sched w = Some s')
    ∧ (∀ fuel, (fuel ≤ Z.to_nat (pages_before K))%nat →
               fetch_submissions fuel env feed sched w = None)
    ∧ Z.of_nat (calls s') = pages_before K + 1
    ∧ offset s' = pages_before K * BATCH_SIZE
    ∧ requested (trace (now s'))
      = requested (trace w)
          ++ offsets_from 0 (Z.to_nat (pages_before K) + 1).
Proof.
  intros HK Hfull Hempty.
  destruct (pages_before_spec K HK) as [Hc0 _].
  destruct (fetch_loop_pages env feed sched K (Z.to_nat (pages_before K))
              HK Hfull Hempty (FetchState 0 0 (log LogStarting w)))
    as (s' & Hsome & Hnone & Hcalls & Hoff & Hreq).
  { cbn [offset]. lia. }
  { cbn [offset]. rewrite Z2Nat.id by lia. lia. }
  exists s'. split_and!; try done.
  rewrite Hcalls. cbn [calls]. lia.
Qed.

Lemma pagination_fetch_calls_witness :
  ∃ s',
    (∀ fuel, (Z.to_nat (pages_before 20) < fuel)%nat →
             fetch_submissions fuel Samples.permissive Samples.one_page
               Samples.serial (fresh_run Samples.empty_disk) = Some s')
    ∧ (∀ fuel, (fuel ≤ Z.to_nat (pages_before 20))%nat →
               fetch_submissions fuel Samples.permissive Samples.one_page
                 Samples.serial (fresh_run Samples.empty_disk) = None)
    ∧ Z.of_nat (calls s') = pages_before 20 + 1
    ∧ offset s' = pages_before 20 * BATCH_SIZE
    ∧ requested (trace (now s'))
      = requested (trace (fresh_run Samples.empty_disk))
          ++ offsets_from 0 (Z.to_nat (pages_before 20) + 1).
Proof.
  apply (pagination_fetch_calls Samples.permissive Samples.one_page
           Samples.serial (fresh_run Samples.empty_disk) 20).
  - lia.
  - intros n o Ho. exists [Samples.two_sum_cpp]. split; [| done].
    unfold Samples.one_page. destruct (Z.ltb_spec o 20); [reflexivity | lia].
  - intros n. exists (Some []). split; reflexivity.
Defined.

(** The claimed count ⌈K / BATCH_SIZE⌉ misses the request that finds the
    empty batch: one page before offset 20, two requests. *)
Lemma one_page_two_requests :
  pages_before 20 = 1
  ∧ ∃ s', fetch_submissions 2 Samples.permissive Samples.one_page
            Samples.serial (fresh_run Samples.empty_disk) = Some s'
          ∧ calls s' = 2%nat
          ∧ requested (trace (now s')) = [0; 20]
          ∧ Z.of_nat (calls s') ≠ pages_before 20.
Proof.
  split; [reflexivity |]. eexists. split; [vm_compute; reflexivity |].
  split_and!; [reflexivity | reflexivity | vm_compute; discriminate].
Qed.

(** ** Errors of a request *)



(** ** Invariants of a pool *)

Section PoolInvariant.
Variable env : os_env.
(** [I] holds of the world, [P] of every worker, [R] of every queued
    record. *)
Variable I : world → Prop.
Variable P : world → pc → Prop.
Variable R : world → raw_submission → Prop.

Hypothesis step_keeps :
  ∀ p w, I w → P w p →
         I (worker_step env p w).2 ∧ P (worker_step env p w).2 (worker_step env p w).1.
Hypothesis step_other :
  ∀ p w p0, I w → P w p → P w p0 → P (worker_step env p w).2 p0.
Hypothesis step_queued :
  ∀ p w r, I w → P w p → R w r → R (worker_step env p w).2 r.
Hypothesis start_ok : ∀ w r, R w r → P w (Start r).
Hypothesis idle_ok : ∀ w, P w Idle.

Lemma pool_step_inv pw i :
  pool_inv I P R pw → pool_inv I P R (pool_step env pw i).
Proof.
  intros (HI & HP & HR). unfold pool_step.
  destruct (workers pw.1 !! i) as [p |] eqn:Hp; [| done].
  destruct (is_idle p).
  - destruct (queue pw.1) as [| r q] eqn:Hq;
      [unfold pool_inv; rewrite Hq; auto |].
    apply Forall_cons in HR as [Hr HR].
    split_and!; cbn [fst snd workers queue]; try done.
    apply Forall_insert; auto.
  - assert (P pw.2 p) as Hpp by (eapply Forall_lookup_1 in HP; eauto).
    destruct (step_keeps p pw.2 HI Hpp) as [HI' HP'].
    pose proof (step_other p pw.2) as Ho. pose proof (step_queued p pw.2) as Hqd.
    destruct (worker_step env p pw.2) as [p' w']. cbn [fst snd] in *.
    split_and!; cbn [fst snd workers queue].
    + done.
    + apply Forall_insert; [| done].
      eapply Forall_impl; [exact HP |]. cbn. auto.
    + eapply Forall_impl; [exact HR |]. cbn. auto.
Qed.

Lemma exec_inv sched pw :
  pool_inv I P R pw → pool_inv I P R (exec env sched pw).
Proof.
  revert pw. induction sched as [| i sched IH]; intros pw H; [done |].
  rewrite exec_cons. apply IH. now apply pool_step_inv.
Qed.

Lemma run_worker_inv n p w ps rs :
  I w → P w p → Forall (P w) ps → Forall (R w) rs →
  I (run_worker n env p w).2
  ∧ Forall (P (run_worker n env p w).2) ps
  ∧ Forall (R (run_worker n env p w).2) rs.
Proof.
  revert p w. induction n as [| n IH]; intros p w HI Hp Hps Hrs; [done |].
  rewrite run_worker_S.
  destruct (step_keeps p w HI Hp) as [HI' HP'].
  pose proof (step_other p w) as Ho. pose proof (step_queued p w) as Hqd.
  destruct (worker_step env p w) as [p' w']. cbn [fst snd] in *.
  apply IH; try done.
  - eapply Forall_impl; [exact Hps |]. cbn. auto.
  - eapply Forall_impl; [exact Hrs |]. cbn. auto.
Qed.

Lemma drain_inv pw : pool_inv I P R pw → I (drain env pw).
Proof.
  intros (HI & HP & HR). unfold drain.
  assert (∀ rs w, I w → Forall (R w) rs →
            I (fold_left (fun w r => (process_submission env r w).2) rs w)) as Hq.
  { induction rs as [| r rs IH]; intros w Hw Hrs; [done |].
    apply Forall_cons in Hrs as [Hr Hrs]. cbn [fold_left].
    pose proof (run_worker_inv 6 (Start r) w [] rs Hw (start_ok _ _ Hr)
                  (Forall_nil_2 _) Hrs) as (H1 & _ & H3).
    rewrite run_worker_process in H1, H3.
    destruct (process_submission env r w) as [o w1]. cbn [snd] in *. auto. }
  assert (∀ ps w rs, I w → Forall (P w) ps → Forall (R w) rs →
            I (fold_left (fun w p => (run_worker 6 env p w).2) ps w)
            ∧ Forall (R (fold_left (fun w p => (run_worker 6 env p w).2) ps w)) rs)
    as Hw.
  { induction ps as [| p ps IH]; intros w rs Hw Hps Hrs; [done |].
    apply Forall_cons in Hps as [Hp Hps]. cbn [fold_left].
    destruct (run_worker_inv 6 p w ps rs Hw Hp Hps Hrs) as (H1 & H2 & H3).
    now apply IH. }
  destruct (Hw (workers pw.1) pw.2 (queue pw.1) HI HP HR) as [H1 H2].
  now apply Hq.
Qed.

Lemma run_batch_inv sched rs w :
  I w → Forall (R w) rs → I (run_batch env sched rs w).
Proof.
  intros HI HR. unfold run_batch. apply drain_inv, exec_inv.
  split_and!; cbn [fst snd init_pool workers queue]; try done.
  unfold MAX_WORKERS. cbn [replicate]. repeat constructor; apply idle_ok.
Qed.
End PoolInvariant.

(** ** The disk only grows *)








Lemma detail_writes_app tr1 tr2 :
  detail_writes (tr1 ++ tr2) = detail_writes tr1 ++ detail_writes tr2.
Proof. apply filter_app. Qed.

(** ** Detail files that exist are not written again *)





(** ** A batch whose records are settled writes no detail file *)




(** ** After a batch every record of it is settled *)
















(** ** A second run over the files of the first *)

Lemma fetch_turn_cases (feed : nat → Z → response) s :
  (is_fetch_error (feed (calls s) (offset s)) = true)
  ∨ (∃ dump, feed (calls s) (offset s) = Page dump ∧ default [] dump = [])
  ∨ (∃ r rs, feed (calls s) (offset s) = Page (Some (r :: rs))).
Proof.
  destruct (feed (calls s) (offset s)) as [| | | [[| r rs] |]]; cbn; eauto.
Qed.








(** ** More on the codec *)

Lemma utf8_encode_char_scalar c :
  is_Some (utf8_encode_char c) ↔ is_scalar_value c = true.
Proof.
  unfold utf8_encode_char, is_scalar_value.
  destruct (Z.ltb_spec c 0), (Z.ltb_spec c 0x80), (Z.ltb_spec c 0x800),
    (Z.ltb_spec c 0x10000), (Z.ltb_spec c 0x110000),
    (Z.leb_spec 0 c), (Z.leb_spec 0xD800 c), (Z.leb_spec c 0xDFFF);
    cbn; try lia; split; intros Hx; try done; try (by destruct Hx); eauto.
Qed.

Lemma utf8_encode_scalar s :
  is_Some (utf8_encode s) ↔ forallb is_scalar_value s = true.
Proof.
  induction s as [| c s IH]; cbn [utf8_encode forallb]; [split; eauto |].
  rewrite andb_true_iff, <- IH, <- utf8_encode_char_scalar.
  destruct (utf8_encode_char c), (utf8_encode s); split;
    try (intros [? ?]); try (intros [[? ?] [? ?]]); try done; eauto.
Qed.

Lemma utf8_encode_char_bytes c bs :
  utf8_encode_char c = Some bs →
  Forall (fun b => 0 ≤ b < 256) bs
  ∧ (1 ≤ length bs ≤ 4)%nat
  ∧ (0 ≤ c < 128 → bs = [c]).
Proof.
  unfold utf8_encode_char.
  destruct (Z.ltb_spec c 0); [discriminate |].
  destruct (Z.ltb_spec c 0x80).
  { intros [= <-]. split_and!; cbn; try lia; auto. repeat constructor; lia. }
  destruct (Z.ltb_spec c 0x800).
  { intros [= <-]. rewrite land_3F, shr6, lor_C0, lor_80 by dm.
    split_and!; cbn; try lia. repeat constructor; dm. }
  destruct (Z.ltb_spec c 0x10000).
  { destruct ((0xD800 <=? c) && (c <=? 0xDFFF)); [discriminate |].
    intros [= <-]. rewrite !land_3F, shr6, shr12, lor_E0, !lor_80 by dm.
    split_and!; cbn; try lia. repeat constructor; dm. }
  destruct (Z.ltb_spec c 0x110000); [| discriminate].
  intros [= <-]. rewrite !land_3F, shr6, shr12, shr18, lor_F0, !lor_80 by dm.
  split_and!; cbn; try lia. repeat constructor; dm.
Qed.

(** X1. The strict UTF-8 writer accepts a text exactly when every code point
    of it is a Unicode scalar value; a lone surrogate (which [json.loads]
    lets through) makes the write raise. *)
Theorem utf8_encode_defined_iff s :
  is_Some (utf8_encode s) ↔ forallb is_scalar_value s = true.
Proof. apply utf8_encode_scalar. Qed.

(** X2. What is written are bytes, at least one and at most four for each
    code point, and a text of ASCII characters is written as it is. *)
Theorem utf8_encode_bytes s bs :
  utf8_encode s = Some bs →
  Forall (fun b => 0 ≤ b < 256) bs
  ∧ (length s ≤ length bs ≤ 4 * length s)%nat
  ∧ (Forall (fun c => 0 ≤ c < 128) s → bs = s).
Proof.
  revert bs. induction s as [| c s IH]; intros bs; cbn [utf8_encode].
  - intros [= <-]. split_and!; cbn; auto.
  - destruct (utf8_encode_char c) as [cb |] eqn:Hc; [| discriminate].
    destruct (utf8_encode s) as [rest |]; [| discriminate].
    intros [= <-]. destruct (utf8_encode_char_bytes c cb Hc) as (Hb & Hl & Ha).
    destruct (IH rest eq_refl) as (Hb' & Hl' & Ha').
    split_and!.
    + now apply Forall_app.
    + rewrite length_app. cbn [length]. lia.
    + rewrite length_app. cbn [length]. lia.
    + intros [Hc0 Hs]%Forall_cons. rewrite (Ha Hc0), (Ha' Hs). reflexivity.
Qed.

Lemma utf8_encode_bytes_witness :
  Forall (fun b => 0 ≤ b < 256) [104; 195; 169]
  ∧ (length [104; 233] ≤ length [104; 195; 169] ≤ 4 * length [104; 233])%nat
  ∧ (Forall (fun c => 0 ≤ c < 128) [104; 233] → [104; 195; 169] = [104; 233]).
Proof.
  apply (utf8_encode_bytes [104; 233] [104; 195; 169]). reflexivity.
Defined.

(** ** What a record that is handled alone leaves behind *)

Lemma mk_submission_None r :
  mk_submission r = None ↔
  raw_title_slug r = None ∨ raw_lang r = None ∨ raw_timestamp r = None
  ∨ raw_status_display r = None ∨ raw_code r = None.
Proof.
  unfold mk_submission.
  destruct r as [[s |] [l |] [t |] [st |] [c |]]; cbn; split; intros H;
    try done; try tauto; repeat (destruct H as [H | H]; try done).
Qed.

(** X3. A record with its five keys, accepted, whose slug is not in the set
    and whose detail file is absent, with nothing refused by the operating
    system and a code body that can be encoded: the detail file holds the raw
    record, the accepted file holds the bytes of the code, the folder of the
    problem exists, the slug is in the set, and the trace shows the detail
    write before the accepted write. *)
Theorem accepted_record_stored env r sub bytes w :
  mk_submission r = Some sub →
  json_exists sub w = false →
  (title_slug sub ∈ dirs (fs w) ∨ mkdir_ok env (title_slug sub) = true) →
  detail_open_ok env (title_slug sub) (timestamp sub) = true →
  text_bytes (code sub) = Some bytes →
  is_accepted sub = true →
  title_slug sub ∉ accepted_slugs w →
  accepted_open_ok env (accepted_name sub) = true →
  (process_submission env r w).1 = DetailAndAccepted
  ∧ detail_files (fs (process_submission env r w).2) !! detail_key sub
    = Some (Complete r)
  ∧ accepted_files (fs (process_submission env r w).2) !! accepted_name sub
    = Some bytes
  ∧ title_slug sub ∈ dirs (fs (process_submission env r w).2)
  ∧ accepted_slugs (process_submission env r w).2
    = {[title_slug sub]} ∪ accepted_slugs w
  ∧ trace (process_submission env r w).2
    = LogSaved (title_slug sub)
        :: AcceptedWrite (title_slug sub) (accepted_name sub) bytes
        :: DetailWrite (title_slug sub) (timestamp sub) (Complete r)
        :: trace w.
Proof.
  intros Hsub Hex Hdir Hopen Hbytes Hacc Hnin Hok.
  unfold process_submission, export_accepted.
  rewrite Hsub, Hex, Hopen, Hbytes, Hacc, Hok.
  destruct (bool_decide_reflect (title_slug sub ∈ dirs (fs w))) as [Hd | Hd].
  - cbn [accepted_slugs put_detail]. rewrite bool_decide_eq_false_2 by done.
    cbn. split_and!; try done; apply lookup_insert_eq.
  - destruct Hdir as [? | ->]; [done |].
    cbn [accepted_slugs put_detail make_dir].
    rewrite bool_decide_eq_false_2 by done.
    cbn. split_and!; try done; try apply lookup_insert_eq.
    apply elem_of_union_l, elem_of_singleton. reflexivity.
Qed.

Lemma accepted_record_stored_witness :
  let r := Samples.two_sum_py in
  let w := fresh_run Samples.empty_disk in
  (process_submission Samples.permissive r w).1 = DetailAndAccepted
  ∧ detail_files (fs (process_submission Samples.permissive r w).2)
      !! ("two-sum"%string, 1700000200) = Some (Complete r)
  ∧ accepted_files (fs (process_submission Samples.permissive r w).2)
      !! "two-sum.py"%string = Some [112; 97; 115; 115; 10]
  ∧ "two-sum"%string ∈ dirs (fs (process_submission Samples.permissive r w).2)
  ∧ accepted_slugs (process_submission Samples.permissive r w).2
    = {["two-sum"%string]} ∪ ∅
  ∧ trace (process_submission Samples.permissive r w).2
    = [LogSaved "two-sum";
       AcceptedWrite "two-sum" "two-sum.py" [112; 97; 115; 115; 10];
       DetailWrite "two-sum" 1700000200 (Complete r)].
Proof.
  intros r w.
  apply (accepted_record_stored Samples.permissive r (Samples.sub_of r)
           [112; 97; 115; 115; 10] w).
  - reflexivity.
  - vm_compute. reflexivity.
  - right. reflexivity.
  - reflexivity.
  - vm_compute. reflexivity.
  - vm_compute. reflexivity.
  - apply not_elem_of_empty.
  - reflexivity.
Defined.

(** X4. A record whose status is not exactly 'Accepted', or whose slug is in
    the set already, is stored as a detail file and nothing else: the
    accepted directory and the set are left as they are. *)
Theorem other_record_detail_only env r sub w :
  mk_submission r = Some sub →
  json_exists sub w = false →
  (title_slug sub ∈ dirs (fs w) ∨ mkdir_ok env (title_slug sub) = true) →
  detail_open_ok env (title_slug sub) (timestamp sub) = true →
  is_Some (text_bytes (code sub)) →
  (status sub ≠ "Accepted"%string ∨ title_slug sub ∈ accepted_slugs w) →
  (process_submission env r w).1 = DetailOnly
  ∧ detail_files (fs (process_submission env r w).2) !! detail_key sub
    = Some (Complete r)
  ∧ accepted_files (fs (process_submission env r w).2) = accepted_files (fs w)
  ∧ accepted_slugs (process_submission env r w).2 = accepted_slugs w
  ∧ trace (process_submission env r w).2
    = DetailWrite (title_slug sub) (timestamp sub) (Complete r) :: trace w.
Proof.
  intros Hsub Hex Hdir Hopen [bytes Hbytes] Hother.
  unfold process_submission, export_accepted.
  rewrite Hsub, Hex, Hopen, Hbytes.
  assert (∀ w1, accepted_slugs w1 = accepted_slugs w →
            is_accepted sub
            && negb (bool_decide (title_slug sub ∈ accepted_slugs w1)) = false)
    as Hno.
  { intros w1 ->. destruct Hother as [Hst | Hin].
    - unfold is_accepted. now rewrite bool_decide_eq_false_2.
    - rewrite (bool_decide_eq_true_2 _ Hin). apply andb_false_r. }
  destruct (bool_decide_reflect (title_slug sub ∈ dirs (fs w))) as [Hd | Hd].
  - rewrite Hno by reflexivity. cbn. split_and!; try done. apply lookup_insert_eq.
  - destruct Hdir as [? | ->]; [done |].
    rewrite Hno by reflexivity. cbn. split_and!; try done. apply lookup_insert_eq.
Qed.

Lemma other_record_detail_only_witness :
  let r := MoreSamples.two_sum_wrong in
  let w := fresh_run Samples.empty_disk in
  (process_submission Samples.permissive r w).1 = DetailOnly
  ∧ detail_files (fs (process_submission Samples.permissive r w).2)
      !! ("two-sum"%string, 1700000500) = Some (Complete r)
  ∧ accepted_files (fs (process_submission Samples.permissive r w).2) = ∅
  ∧ accepted_slugs (process_submission Samples.permissive r w).2 = ∅
  ∧ trace (process_submission Samples.permissive r w).2
    = [DetailWrite "two-sum" 1700000500 (Complete r)].
Proof.
  intros r w.
  apply (other_record_detail_only Samples.permissive r (Samples.sub_of r) w).
  - reflexivity.
  - vm_compute. reflexivity.
  - right. reflexivity.
  - reflexivity.
  - vm_compute. eexists. reflexivity.
  - left. vm_compute. discriminate.
Defined.

(** X5. A record that lacks one of the five keys is dropped before anything
    is looked up or written: disk and set stay as they are, and the one error
    that is logged names the slug when the record has one and 'unknown'
    otherwise. *)
Theorem record_without_key_dropped env r w :
  raw_title_slug r = None ∨ raw_lang r = None ∨ raw_timestamp r = None
  ∨ raw_status_display r = None ∨ raw_code r = None →
  process_submission env r w
    = (Dropped,
       World (fs w) (accepted_slugs w)
         (LogProcessingError
            (match raw_title_slug r with Some s => s | None => "unknown"%string end)
            :: trace w))
  ∧ worker_step env (Start r) w
    = (Finished Dropped, (process_submission env r w).2).
Proof.
  intros H%mk_submission_None. unfold process_submission. cbn [worker_step].
  rewrite H. split; reflexivity.
Qed.

Lemma record_without_key_dropped_witness :
  process_submission Samples.permissive MoreSamples.no_keys
    (fresh_run Samples.empty_disk)
    = (Dropped, World Samples.empty_disk ∅ [LogProcessingError "unknown"])
  ∧ worker_step Samples.permissive (Start MoreSamples.no_keys)
      (fresh_run Samples.empty_disk)
    = (Finished Dropped,
       (process_submission Samples.permissive MoreSamples.no_keys
          (fresh_run Samples.empty_disk)).2).
Proof.
  apply (record_without_key_dropped Samples.permissive MoreSamples.no_keys
           (fresh_run Samples.empty_disk)).
  left. reflexivity.
Defined.

(** X6. A code body with a code point that UTF-8 cannot encode interrupts
    [json.dump]: the record is dropped, a partial detail file stays on disk,
    nothing is exported; and from then on every record with that slug and
    timestamp is skipped, so the submission is never stored in full. *)
Theorem unencodable_code_leaves_partial_file env r sub w :
  mk_submission r = Some sub →
  json_exists sub w = false →
  (title_slug sub ∈ dirs (fs w) ∨ mkdir_ok env (title_slug sub) = true) →
  detail_open_ok env (title_slug sub) (timestamp sub) = true →
  forallb is_scalar_value (code sub) = false →
  (process_submission env r w).1 = Dropped
  ∧ detail_files (fs (process_submission env r w).2) !! detail_key sub
    = Some Partial
  ∧ accepted_files (fs (process_submission env r w).2) = accepted_files (fs w)
  ∧ accepted_slugs (process_submission env r w).2 = accepted_slugs w
  ∧ ∀ env2 r2 sub2 w2,
      mk_submission r2 = Some sub2 →
      detail_key sub2 = detail_key sub →
      disk_grows env2 (fs (process_submission env r w).2) (fs w2) →
      (process_submission env2 r2 w2).1 = Skip.
Proof.
  intros Hsub Hex Hdir Hopen Hbad.
  assert (text_bytes (code sub) = None) as Hbytes.
  { rewrite text_bytes_utf8. destruct (utf8_encode (code sub)) eqn:He; [| done].
    assert (is_Some (utf8_encode (code sub))) as Hs by eauto.
    apply utf8_encode_scalar in Hs. congruence. }
  assert (∃ w1, process_submission env r w
                = (Dropped, log (LogProcessingError (error_label r))
                              (put_detail sub Partial w1))
                ∧ accepted_files (fs w1) = accepted_files (fs w)
                ∧ accepted_slugs w1 = accepted_slugs w) as (w1 & Hp & Hf & Hs).
  { unfold process_submission, dropped. rewrite Hsub, Hex, Hopen, Hbytes.
    destruct (bool_decide_reflect (title_slug sub ∈ dirs (fs w))) as [Hd | Hd].
    - exists w. done.
    - destruct Hdir as [? | ->]; [done |].
      exists (make_dir (title_slug sub) w). done. }
  rewrite Hp. cbn [fst snd fs log put_detail detail_files accepted_files
                     accepted_slugs].
  split_and!; try done.
  - apply lookup_insert_eq.
  - intros env2 r2 sub2 w2 Hsub2 Hkey [Hg _].
    unfold process_submission. rewrite Hsub2.
    assert (json_exists sub2 w2 = true) as ->; [| reflexivity].
    apply bool_decide_eq_true. unfold detail_key in Hkey. rewrite Hkey.
    apply Hg. cbn. rewrite lookup_insert_eq. eauto.
Qed.

Lemma unencodable_code_leaves_partial_file_witness :
  let r := MoreSamples.two_sum_surrogate in
  let w := fresh_run Samples.empty_disk in
  (process_submission Samples.permissive r w).1 = Dropped
  ∧ detail_files (fs (process_submission Samples.permissive r w).2)
      !! ("two-sum"%string, 1700000600) = Some Partial
  ∧ accepted_files (fs (process_submission Samples.permissive r w).2) = ∅
  ∧ accepted_slugs (process_submission Samples.permissive r w).2 = ∅
  ∧ ∀ env2 r2 sub2 w2,
      mk_submission r2 = Some sub2 →
      detail_key sub2 = ("two-sum"%string, 1700000600) →
      disk_grows env2 (fs (process_submission Samples.permissive r w).2) (fs w2) →
      (process_submission env2 r2 w2).1 = Skip.
Proof.
  intros r w.
  apply (unencodable_code_leaves_partial_file Samples.permissive r
           (Samples.sub_of r) w).
  - reflexivity.
  - vm_compute. reflexivity.
  - right. reflexivity.
  - reflexivity.
  - vm_compute. reflexivity.
Defined.

(** ** Properties of the world that the loop keeps *)

Section LoopInvariant.
Variable env : os_env.
Variable J : world → Prop.
Hypothesis log_keeps :
  ∀ e w,
    match e with
    | LogStarting | Get _ | Sleep _ | LogProcessing _ _ | LogNoMore
    | LogJsonError _ | LogFetchError _ => True
    | _ => False
    end → J w → J (log e w).
Hypothesis batch_keeps : ∀ sched rs w, J w → J (run_batch env sched rs w).

Lemma fetch_turn_keeps feed sched s :
  J (now s) → J (now (fetch_turn env feed sched s).2).
Proof.
  intros HJ. unfold fetch_turn.
  destruct (feed (calls s) (offset s)) as [| | | dump]; cbn [snd now].
  - apply (log_keeps (Sleep 5)), (log_keeps (LogFetchError _)),
      (log_keeps (Get _)); done.
  - apply (log_keeps (Sleep 5)), (log_keeps (LogFetchError _)),
      (log_keeps (Sleep 2)), (log_keeps (Get _)); done.
  - apply (log_keeps (Sleep 5)), (log_keeps (LogJsonError _)),
      (log_keeps (Sleep 2)), (log_keeps (Get _)); done.
  - destruct (default [] dump) as [| r rs]; cbn [snd now].
    + apply (log_keeps LogNoMore), (log_keeps (Sleep 2)), (log_keeps (Get _)); done.
    + apply batch_keeps, (log_keeps (LogProcessing _ _)), (log_keeps (Sleep 2)),
        (log_keeps (Get _)); done.
Qed.

Lemma fetch_loop_keeps fuel feed sched s s' :
  fetch_loop fuel env feed sched s = Some s' → J (now s) → J (now s').
Proof.
  revert s. induction fuel as [| fuel IH]; intros s; [discriminate |].
  rewrite fetch_loop_S. intros H HJ.
  pose proof (fetch_turn_keeps feed sched s HJ) as H1.
  destruct (fetch_turn env feed sched s) as [[] s1]; cbn [fst snd] in *.
  - now injection H as <-.
  - eauto.
Qed.

Lemma fetch_submissions_keeps fuel feed sched w s' :
  fetch_submissions fuel env feed sched w = Some s' → J w → J (now s').
Proof.
  unfold fetch_submissions. intros H HJ.
  apply (fetch_loop_keeps _ _ _ _ _ H). cbn [now].
  apply (log_keeps LogStarting); done.
Qed.
End LoopInvariant.

(** ** A batch touches only what belongs to its records *)


Section Frame.
Variable env : os_env.
Variable rs : list raw_submission.
Variable w : world.



End Frame.


(** ** An accepted file comes after the detail file *)

Lemma worker_step_trace_grows env p w :
  ∃ evs, trace (worker_step env p w).2 = evs ++ trace w.
Proof.
  step_cases p; cbn [trace log put_detail put_accepted add_slug make_dir];
    try (by exists []);
    try (by eexists [_]); try (by eexists [_; _]); try (by eexists [_; _; _]).
Qed.

Lemma pc_detail_logged_grows env p w p0 :
  pc_detail_logged w p0 → pc_detail_logged (worker_step env p w).2 p0.
Proof.
  destruct (worker_step_trace_grows env p w) as [evs Hevs].
  destruct p0 as [| | [] ? sub |]; cbn; try done.
  all: intros [c Hc]; exists c; rewrite Hevs; apply elem_of_app; now right.
Qed.

Lemma worker_step_exports_follow env p w :
  exports_follow_details (trace w) → pc_detail_logged w p →
  exports_follow_details (trace (worker_step env p w).2)
  ∧ pc_detail_logged (worker_step env p w).2 (worker_step env p w).1.
Proof.
  step_cases p; intros HI HP; cbn in HP |- *; try done.
  - split; [done |]. eexists. apply list_elem_of_here.
  - destruct HP as [c Hc]. split_and!; eauto.
  - destruct HP as [c Hc]. split_and!; eauto.
Qed.

Lemma run_batch_exports_follow env sched rs w :
  exports_follow_details (trace w) →
  exports_follow_details (trace (run_batch env sched rs w)).
Proof.
  intros Hw.
  apply (run_batch_inv env (fun w' => exports_follow_details (trace w'))
           pc_detail_logged (fun _ _ => True)); try done.
  - intros p w' HI HP. now apply worker_step_exports_follow.
  - intros p w' p0 _ _. apply pc_detail_logged_grows.
  - apply Forall_true. auto.
Qed.

Lemma exports_follow_details_split tr :
  exports_follow_details tr →
  ∀ tr1 s n bytes tr2,
    tr = tr1 ++ AcceptedWrite s n bytes :: tr2 →
    ∃ t c, DetailWrite s t c ∈ tr2.
Proof.
  induction tr as [| e tr IH]; intros H tr1 s n bytes tr2 Heq.
  - now destruct tr1.
  - destruct tr1 as [| e1 tr1]; cbn [app] in Heq; injection Heq as -> ->.
    + cbn in H. tauto.
    + apply (IH ltac:(destruct e1; cbn in H; tauto) tr1 s n bytes tr2 eq_refl).
Qed.

(** X8. Under every schedule and whatever the feed answers, an accepted file
    is written only for a problem of which a detail file was written earlier
    in the same run: in the trace of a run, every accepted write has an older
    detail write of the same slug. *)
Theorem export_follows_detail_write env feed sched fuel d s' :
  fetch_submissions fuel env feed sched (fresh_run d) = Some s' →
  ∀ newer s n bytes older,
    trace (now s') = newer ++ AcceptedWrite s n bytes :: older →
    ∃ t c, DetailWrite s t c ∈ older.
Proof.
  intros H. apply exports_follow_details_split.
  apply (fetch_submissions_keeps env
           (fun w => exports_follow_details (trace w)) ltac:(by intros []) 
           (run_batch_exports_follow env) _ _ _ _ _ H).
  exact I.
Qed.

Lemma export_follows_detail_write_witness :
  fetch_submissions 2 Samples.permissive Samples.one_page Samples.serial
    (fresh_run Samples.empty_disk) = Some Samples.first_run
  ∧ ∀ newer s n bytes older,
      trace (now Samples.first_run) = newer ++ AcceptedWrite s n bytes :: older →
      ∃ t c, DetailWrite s t c ∈ older.
Proof.
  split; [vm_compute; reflexivity |].
  apply (export_follows_detail_write Samples.permissive Samples.one_page
           Samples.serial 2 Samples.empty_disk Samples.first_run).
  vm_compute. reflexivity.
Defined.

(** ** The shape of the disk *)






(** ** Nothing is removed *)

Lemma nothing_removed_refl w : nothing_removed w w.
Proof. unfold nothing_removed; auto. Qed.

Lemma nothing_removed_trans w1 w2 w3 :
  nothing_removed w1 w2 → nothing_removed w2 w3 → nothing_removed w1 w3.
Proof.
  intros (A1 & B1 & C1 & D1) (A2 & B2 & C2 & D2).
  split_and!; auto; etrans; eauto.
Qed.

Lemma worker_step_removes_nothing env p w :
  nothing_removed w (worker_step env p w).2.
Proof.
  step_cases p; try apply nothing_removed_refl; split_and!; cbn; try done;
    try apply union_subseteq_r.
  all: intros k Hk;
    match goal with
    | |- is_Some (<[?i := _]> _ !! _) =>
        destruct (decide (i = k)) as [<- | Hne];
        [rewrite lookup_insert_eq; eauto | now rewrite lookup_insert_ne]
    end.
Qed.

Lemma run_batch_removes_nothing env sched rs w :
  nothing_removed w (run_batch env sched rs w).
Proof.
  apply (lift_run_batch env (nothing_removed w)); [| apply nothing_removed_refl].
  intros p w' Hw'. eapply nothing_removed_trans; [exact Hw' |].
  apply worker_step_removes_nothing.
Qed.

(** X10. Whatever the feed and the schedules, a run removes nothing: every
    folder, every detail file, every name of the accepted directory and
    every slug of the set that was there before a run is there after it. *)
Theorem run_removes_nothing env feed sched fuel w s' :
  fetch_submissions fuel env feed sched w = Some s' →
  nothing_removed w (now s').
Proof.
  intros H.
  assert (∀ e w', nothing_removed w w' → nothing_removed w (log e w')) as Hlog
    by (intros e w' Hw'; exact Hw').
  assert (∀ sch rs w', nothing_removed w w' →
            nothing_removed w (run_batch env sch rs w')) as Hbatch.
  { intros sch rs w' Hw'. eapply nothing_removed_trans; [exact Hw' |].
    apply run_batch_removes_nothing. }
  apply (fetch_submissions_keeps env (nothing_removed w)
           (fun e w' _ => Hlog e w') Hbatch _ _ _ _ _ H).
  apply nothing_removed_refl.
Qed.

Lemma run_removes_nothing_witness :
  nothing_removed (fresh_run Samples.empty_disk) (now Samples.first_run).
Proof.
  apply (run_removes_nothing Samples.permissive Samples.one_page
           Samples.serial 2 (fresh_run Samples.empty_disk) Samples.first_run).
  vm_compute. reflexivity.
Defined.

(** ** Pages are handled once and in order *)

Lemma processed_cons e tr :
  processed (e :: tr) =
  processed tr ++ match e with LogProcessing _ o => [o] | _ => [] end.
Proof.
  unfold processed. destruct e; cbn [omap list_omap]; rewrite ?app_nil_r; done.
Qed.

Lemma processed_app tr1 tr2 : processed (tr1 ++ tr2) = processed tr2 ++ processed tr1.
Proof.
  induction tr1 as [| e tr1 IH]; cbn [app].
  - now rewrite app_nil_r.
  - now rewrite !processed_cons, IH, app_assoc.
Qed.

Lemma worker_step_processed env p w :
  processed (trace (worker_step env p w).2) = processed (trace w).
Proof.
  step_cases p; try done;
    cbn [trace log put_detail put_accepted add_slug make_dir];
    rewrite ?processed_cons, ?app_nil_r; done.
Qed.

Lemma run_batch_processed env sched rs w :
  processed (trace (run_batch env sched rs w)) = processed (trace w).
Proof.
  apply (lift_run_batch env (fun w' => processed (trace w') = processed (trace w)));
    [| done].
  intros p w' Hw'. now rewrite worker_step_processed.
Qed.

Lemma offsets_from_snoc o k :
  offsets_from o (S k) = offsets_from o k ++ [o + Z.of_nat k * BATCH_SIZE].
Proof.
  revert o. induction k as [| k IH]; intros o.
  - cbn. f_equal. lia.
  - change (offsets_from o (S (S k))) with (o :: offsets_from (o + BATCH_SIZE) (S k)).
    rewrite IH. cbn [offsets_from app]. do 3 f_equal. lia.
Qed.

Lemma fetch_loop_pages_in_order fuel env feed sched s s' :
  fetch_loop fuel env feed sched s = Some s' →
  ∃ k : nat,
    offset s' = offset s + Z.of_nat k * BATCH_SIZE
    ∧ processed (trace (now s'))
      = processed (trace (now s)) ++ offsets_from (offset s) k
    ∧ last (requested (trace (now s'))) = Some (offset s').
Proof.
  revert s. induction fuel as [| fuel IH]; intros s; [discriminate |].
  rewrite fetch_loop_S.
  destruct (fetch_turn_cases feed s)
    as [Herr | [(dump & Hf & Hd) | (r & rs & Hf)]].
  - rewrite (fetch_turn_error _ _ _ _ Herr). cbn [fst snd].
    intros H. destruct (IH _ H) as (k & Ho & Hp & Hl). exists k.
    cbn [offset now trace] in *. split_and!; try done.
    rewrite Hp, processed_app. f_equal.
    destruct (feed (calls s) (offset s)); try discriminate;
      cbn; now rewrite app_nil_r.
  - rewrite (fetch_turn_empty _ _ _ _ _ Hf Hd). cbn [fst snd].
    intros [= <-]. exists 0%nat. cbn [offset now log trace offsets_from].
    rewrite !processed_cons, !requested_cons, !app_nil_r, last_snoc.
    split_and!; try done. lia.
  - rewrite (fetch_turn_page _ _ _ _ _ _ Hf). cbn [fst snd].
    intros H. destruct (IH _ H) as (k & Ho & Hp & Hl). exists (S k).
    cbn [offset now] in *. split_and!; try done.
    + lia.
    + rewrite Hp, run_batch_processed. cbn [log trace offsets_from].
      rewrite !processed_cons, !app_nil_r, <- app_assoc. reflexivity.
Qed.

(** X11. Whatever the feed answers, errors included, when the loop ends it
    has handed the pages at the offsets 0, [BATCH_SIZE], 2 [BATCH_SIZE], ...
    to the pool, each once and in this order, up to the offset it stands at,
    and its last request was made at that offset. *)
Theorem pages_processed_once_in_order env feed sched fuel d s' :
  fetch_submissions fuel env feed sched (fresh_run d) = Some s' →
  ∃ k : nat,
    offset s' = Z.of_nat k * BATCH_SIZE
    ∧ processed (trace (now s')) = offsets_from 0 k
    ∧ last (requested (trace (now s'))) = Some (offset s').
Proof.
  unfold fetch_submissions. intros H.
  destruct (fetch_loop_pages_in_order _ _ _ _ _ _ H) as (k & Ho & Hp & Hl).
  exists k. cbn [offset now log trace] in *. split_and!; try done.
Qed.

Lemma pages_processed_once_in_order_witness :
  ∃ k : nat,
    offset Samples.first_run = Z.of_nat k * BATCH_SIZE
    ∧ processed (trace (now Samples.first_run)) = offsets_from 0 k
    ∧ last (requested (trace (now Samples.first_run)))
      = Some (offset Samples.first_run).
Proof.
  apply (pages_processed_once_in_order Samples.permissive Samples.one_page
           Samples.serial 2 Samples.empty_disk Samples.first_run).
  vm_compute. reflexivity.
Defined.

(** ** A sleep between two requests *)

Lemma worker_step_polite env p w :
  polite (trace w) ∧ slept (trace w) →
  polite (trace (worker_step env p w).2) ∧ slept (trace (worker_step env p w).2).
Proof. step_cases p; intros [H1 H2]; cbn; done. Qed.

Lemma fetch_turn_polite env feed sched s :
  polite (trace (now s)) ∧ slept (trace (now s)) →
  polite (trace (now (fetch_turn env feed sched s).2))
  ∧ slept (trace (now (fetch_turn env feed sched s).2)).
Proof.
  intros [H1 H2]. unfold fetch_turn.
  destruct (feed (calls s) (offset s)) as [| | | dump]; cbn [snd now];
    [cbn; split_and!; done || lia ..|].
  destruct (default [] dump) as [| r rs]; cbn [snd now];
    [cbn; split_and!; done || lia |].
  apply (lift_run_batch env (fun w => polite (trace w) ∧ slept (trace w))).
  - intros p w. apply worker_step_polite.
  - cbn. split_and!; done || lia.
Qed.

Lemma fetch_loop_polite fuel env feed sched s s' :
  fetch_loop fuel env feed sched s = Some s' →
  polite (trace (now s)) ∧ slept (trace (now s)) →
  polite (trace (now s')).
Proof.
  revert s. induction fuel as [| fuel IH]; intros s; [discriminate |].
  rewrite fetch_loop_S. intros H HJ.
  pose proof (fetch_turn_polite env feed sched s HJ) as H1.
  destruct (fetch_turn env feed sched s) as [[] s1]; cbn [fst snd] in *.
  - injection H as <-. tauto.
  - eauto.
Qed.

Lemma slept_app_get mid o tr :
  slept (mid ++ Get o :: tr) → ∃ n, 2 ≤ n ∧ Sleep n ∈ mid.
Proof.
  induction mid as [| e mid IH]; cbn [app]; [done |].
  destruct e; cbn; intros H; try done;
    try (destruct (IH H) as (n & ? & ?); exists n; split; [done |];
         now apply list_elem_of_further).
  eexists. split; [exact H | apply list_elem_of_here].
Qed.

Lemma polite_between tr :
  polite tr →
  ∀ newer o2 mid o1 older,
    tr = newer ++ Get o2 :: mid ++ Get o1 :: older →
    ∃ n, 2 ≤ n ∧ Sleep n ∈ mid.
Proof.
  induction tr as [| e tr IH]; intros H newer o2 mid o1 older Heq.
  - now destruct newer.
  - destruct newer as [| e1 newer]; cbn [app] in Heq; injection Heq as -> ->.
    + cbn in H. destruct H as [H _]. now apply slept_app_get in H.
    + apply (IH ltac:(destruct e1; cbn in H; tauto) newer o2 mid o1 older eq_refl).
Qed.

(** X12. Whatever the feed answers and whatever the schedules, the loop never
    makes two requests in a row: between any two requests of a run there is a
    sleep of at least two seconds. *)
Theorem sleep_between_requests env feed sched fuel d s' :
  fetch_submissions fuel env feed sched (fresh_run d) = Some s' →
  ∀ newer o2 mid o1 older,
    trace (now s') = newer ++ Get o2 :: mid ++ Get o1 :: older →
    ∃ n, 2 ≤ n ∧ Sleep n ∈ mid.
Proof.
  unfold fetch_submissions. intros H. apply polite_between.
  apply (fetch_loop_polite _ _ _ _ _ _ H). cbn. done.
Qed.

Lemma sleep_between_requests_witness :
  fetch_submissions 2 Samples.permissive Samples.one_page Samples.serial
    (fresh_run Samples.empty_disk) = Some Samples.first_run
  ∧ ∀ newer o2 mid o1 older,
      trace (now Samples.first_run) = newer ++ Get o2 :: mid ++ Get o1 :: older →
      ∃ n, 2 ≤ n ∧ Sleep n ∈ mid.
Proof.
  split; [vm_compute; reflexivity |].
  apply (sleep_between_requests Samples.permissive Samples.one_page
           Samples.serial 2 Samples.empty_disk Samples.first_run).
  vm_compute. reflexivity.
Defined.

(** ** Errors that pass *)

Lemma fetch_loop_after_errors env feed sched K N m :
  0 ≤ K →
  (∀ n o, 0 ≤ o < K →
          is_fetch_error (feed n o) = true
          ∨ ∃ l, feed n o = Page (Some l) ∧ l ≠ []) →
  (∀ n, is_fetch_error (feed n (pages_before K * BATCH_SIZE)) = true
        ∨ ∃ dump, feed n (pages_before K * BATCH_SIZE) = Page dump
                  ∧ default [] dump = []) →
  (∀ n o, (N ≤ n)%nat → is_fetch_error (feed n o) = false) →
  ∀ s (i : nat),
    offset s = Z.of_nat i * BATCH_SIZE →
    Z.of_nat i ≤ pages_before K →
    ((N - calls s) + (Z.to_nat (pages_before K) - i) ≤ m)%nat →
    ∃ s',
      (∀ fuel, (m < fuel)%nat → fetch_loop fuel env feed sched s = Some s')
      ∧ offset s' = pages_before K * BATCH_SIZE
      ∧ processed (trace (now s'))
        = processed (trace (now s))
            ++ offsets_from (offset s) (Z.to_nat (pages_before K) - i).
Proof.
  intros HK Hfull Hempty Hcalm.
  destruct (pages_before_spec K HK) as [Hc0 Hc].
  induction m as [| m IH]; intros s i Ho Hi Hm.
  - (* no error is left and the offset is the last one *)
    assert (is_fetch_error (feed (calls s) (offset s)) = false) as Hne
      by (apply Hcalm; lia).
    assert (offset s = pages_before K * BATCH_SIZE) as Hoff
      by (assert (Z.of_nat i = pages_before K) as <- by lia; exact Ho).
    destruct (Hempty (calls s)) as [Herr | (dump & Hf & Hd)];
      [rewrite <- Hoff in Herr; congruence |].
    rewrite <- Hoff in Hf.
    pose proof (fetch_turn_empty env feed sched s dump Hf Hd) as Hturn.
    exists (FetchState (offset s) (S (calls s))
              (log LogNoMore (log (Sleep 2) (log (Get (offset s)) (now s))))).
    split_and!.
    + intros [| fuel] Hfuel; [lia |]. rewrite fetch_loop_S, Hturn. reflexivity.
    + exact Hoff.
    + cbn [now log trace]. rewrite !processed_cons, !app_nil_r.
      replace (Z.to_nat (pages_before K) - i)%nat with 0%nat by lia.
      cbn. now rewrite app_nil_r.
  - destruct (fetch_turn_cases feed s)
      as [Herr | [(dump & Hf & Hd) | (r & rs & Hf)]].
    + (* an error: the same offset, one call later *)
      assert (calls s < N)%nat as Hlt.
      { destruct (decide (calls s < N)%nat); [done |].
        rewrite Hcalm in Herr by lia. discriminate. }
      pose proof (fetch_turn_error env feed sched s Herr) as Hturn.
      remember (FetchState (offset s) (S (calls s))
                  (World (fs (now s)) (accepted_slugs (now s))
                     (retry_events (feed (calls s) (offset s)) (offset s)
                        ++ trace (now s)))) as s1 eqn:Hs1.
      destruct (IH s1 i) as (s' & Hsome & Hoff & Hp).
      { subst s1. exact Ho. }
      { exact Hi. }
      { subst s1. cbn [calls]. lia. }
      exists s'. split_and!.
      * intros [| fuel] Hfuel; [lia |]. rewrite fetch_loop_S, Hturn.
        cbn [fst snd]. apply Hsome. lia.
      * exact Hoff.
      * rewrite Hp. subst s1. cbn [offset now trace].
        rewrite processed_app. f_equal.
        destruct (feed (calls s) (offset s)); try discriminate;
          cbn; now rewrite app_nil_r.
    + (* an empty batch: only at the last offset *)
      assert (¬ offset s < K) as Hge.
      { intros Hlt. destruct (Hfull (calls s) (offset s)) as [He | (l & Hl & Hne)];
          [unfold BATCH_SIZE in *; lia | rewrite Hf in He; discriminate |].
        rewrite Hf in Hl. injection Hl as ->. cbn in Hd. done. }
      assert (offset s = pages_before K * BATCH_SIZE) as Hoff
        by (unfold BATCH_SIZE in *; lia).
      pose proof (fetch_turn_empty env feed sched s dump Hf Hd) as Hturn.
      exists (FetchState (offset s) (S (calls s))
                (log LogNoMore (log (Sleep 2) (log (Get (offset s)) (now s))))).
      split_and!.
      * intros [| fuel] Hfuel; [lia |]. rewrite fetch_loop_S, Hturn. reflexivity.
      * exact Hoff.
      * cbn [now log trace]. rewrite !processed_cons, !app_nil_r.
        replace (Z.to_nat (pages_before K) - i)%nat with 0%nat
          by (unfold BATCH_SIZE in *; lia).
        cbn. now rewrite app_nil_r.
    + (* a batch: the next offset *)
      assert (offset s < pages_before K * BATCH_SIZE) as Hlt.
      { destruct (decide (offset s < pages_before K * BATCH_SIZE)); [done |].
        assert (offset s = pages_before K * BATCH_SIZE) as Hoff
          by (unfold BATCH_SIZE in *; lia).
        destruct (Hempty (calls s)) as [He | (dump & Hd & Hde)];
          rewrite <- Hoff, Hf in *; [discriminate |].
        injection Hd as <-. discriminate. }
      pose proof (fetch_turn_page env feed sched s r rs Hf) as Hturn.
      remember (FetchState (offset s + BATCH_SIZE) (S (calls s))
                  (run_batch env (sched (calls s)) (r :: rs)
                     (log (LogProcessing (length (r :: rs)) (offset s))
                        (log (Sleep 2) (log (Get (offset s)) (now s))))))
        as s1 eqn:Hs1.
      destruct (IH s1 (S i)) as (s' & Hsome & Hoff & Hp).
      { subst s1. cbn [offset]. lia. }
      { unfold BATCH_SIZE in *. lia. }
      { subst s1. cbn [calls]. unfold BATCH_SIZE in *. lia. }
      exists s'. split_and!.
      * intros [| fuel] Hfuel; [lia |]. rewrite fetch_loop_S, Hturn.
        cbn [fst snd]. apply Hsome. lia.
      * exact Hoff.
      * rewrite Hp. subst s1. cbn [offset now].
        rewrite run_batch_processed. cbn [log trace].
        rewrite !processed_cons, !app_nil_r, <- app_assoc.
        replace (Z.to_nat (pages_before K) - i)%nat
          with (S (Z.to_nat (pages_before K) - S i))
          by (unfold BATCH_SIZE in *; lia).
        reflexivity.
Qed.

(** X13. Errors that pass only delay the run.  When the feed, where it
    answers at all, answers every offset below [K] with a batch that is not
    empty and the offset ⌈K / BATCH_SIZE⌉ [BATCH_SIZE] with an empty or absent
    list, and no request from call number [N] on ends in an error, then the
    loop ends within [N] + ⌈K / BATCH_SIZE⌉ + 1 turns, having handed every
    page to the pool once and in order. *)
Theorem fetch_ends_after_transient_errors env feed sched d K N :
  0 ≤ K →
  (∀ n o, 0 ≤ o < K →
          is_fetch_error (feed n o) = true
          ∨ ∃ l, feed n o = Page (Some l) ∧ l ≠ []) →
  (∀ n, is_fetch_error (feed n (pages_before K * BATCH_SIZE)) = true
        ∨ ∃ dump, feed n (pages_before K * BATCH_SIZE) = Page dump
                  ∧ default [] dump = []) →
  (∀ n o, (N ≤ n)%nat → is_fetch_error (feed n o) = false) →
  ∃ s',
    (∀ fuel, (N + Z.to_nat (pages_before K) < fuel)%nat →
             fetch_submissions fuel env feed sched (fresh_run d) = Some s')
    ∧ offset s' = pages_before K * BATCH_SIZE
    ∧ processed (trace (now s')) = offsets_from 0 (Z.to_nat (pages_before K)).
Proof.
  intros HK Hfull Hempty Hcalm.
  destruct (pages_before_spec K HK) as [Hc0 _].
  destruct (fetch_loop_after_errors env feed sched K N
              (N + Z.to_nat (pages_before K)) HK Hfull Hempty Hcalm
              (FetchState 0 0 (log LogStarting (fresh_run d))) 0%nat)
    as (s' & Hsome & Hoff & Hp).
  { reflexivity. }
  { cbn. lia. }
  { cbn [calls]. lia. }
  exists s'. split_and!; try done.
  rewrite Hp. cbn [now log trace offset]. rewrite Nat.sub_0_r. reflexivity.
Qed.

Lemma fetch_ends_after_transient_errors_witness :
  ∃ s',
    (∀ fuel, (2 + Z.to_nat (pages_before 20) < fuel)%nat →
             fetch_submissions fuel Samples.permissive MoreSamples.flaky
               Samples.serial (fresh_run Samples.empty_disk) = Some s')
    ∧ offset s' = pages_before 20 * BATCH_SIZE
    ∧ processed (trace (now s')) = offsets_from 0 (Z.to_nat (pages_before 20)).
Proof.
  apply (fetch_ends_after_transient_errors Samples.permissive MoreSamples.flaky
           Samples.serial Samples.empty_disk 20 2).
  - lia.
  - intros n o Ho. unfold MoreSamples.flaky, Samples.one_page.
    destruct (n <? 2)%nat; [now left | right].
    exists [Samples.two_sum_cpp]. destruct (Z.ltb_spec o 20); [done | lia].
  - intros n. unfold MoreSamples.flaky, Samples.one_page.
    destruct (n <? 2)%nat; [now left | right]. exists (Some []). done.
  - intros n o Hn. unfold MoreSamples.flaky, Samples.one_page.
    destruct (Nat.ltb_spec n 2); [lia |]. now destruct (o <? 20).
Defined.

(** ** Where the files come from *)

Lemma worker_step_written_from env A p w :
  Forall (written_from A) (trace w) → pc_written_from A p →
  Forall (written_from A) (trace (worker_step env p w).2)
  ∧ pc_written_from A (worker_step env p w).1.
Proof.
  intros Hw.
  step_cases p; intros HP; cbn [fst snd pc_written_from] in *;
    cbn [trace log put_detail put_accepted add_slug make_dir].
  all: repeat match goal with
         | H : _ ∧ _ |- _ => destruct H
         | H : is_Some _ |- _ => destruct H as [? H]
         end.
  all: try congruence.
  all: split;
    [ repeat (apply Forall_cons; split); try exact Hw; try exact I;
      cbn [written_from]; naive_solver
    | try exact I; split_and!; eauto ].
Qed.

Lemma run_batch_written_from env A sched rs w :
  Forall (written_from A) (trace w) → Forall A rs →
  Forall (written_from A) (trace (run_batch env sched rs w)).
Proof.
  intros Hw Hrs.
  apply (run_batch_inv env (fun w' => Forall (written_from A) (trace w'))
           (fun _ => pc_written_from A) (fun _ => A)).
  - intros p w'. apply worker_step_written_from.
  - intros p w' p0 _ _ H. exact H.
  - auto.
  - auto.
  - intros; exact I.
  - exact Hw.
  - exact Hrs.
Qed.

Lemma fetch_loop_written_from fuel env feed sched s s' :
  fetch_loop fuel env feed sched s = Some s' →
  Forall (written_from (served feed)) (trace (now s)) →
  Forall (written_from (served feed)) (trace (now s')).
Proof.
  revert s. induction fuel as [| fuel IH]; intros s; [discriminate |].
  rewrite fetch_loop_S.
  destruct (fetch_turn_cases feed s)
    as [Herr | [(dump & Hf & Hd) | (r & rs & Hf)]].
  - rewrite (fetch_turn_error _ _ _ _ Herr). cbn [fst snd].
    intros H Hs. apply (IH _ H). cbn [now trace].
    apply Forall_app. split; [| exact Hs].
    destruct (feed (calls s) (offset s)); try discriminate;
      cbn; repeat constructor.
  - rewrite (fetch_turn_empty _ _ _ _ _ Hf Hd). cbn [fst snd].
    intros [= <-] Hs. cbn [now log trace]. repeat (constructor; [exact I |]).
    exact Hs.
  - rewrite (fetch_turn_page _ _ _ _ _ _ Hf). cbn [fst snd].
    intros H Hs. apply (IH _ H). cbn [now].
    apply run_batch_written_from.
    + cbn [log trace]. repeat (constructor; [exact I |]). exact Hs.
    + apply Forall_forall. intros r' Hr'.
      exists (calls s), (offset s), (r :: rs). done.
Qed.

(** X14. Every file a run writes comes from a record that the feed served,
    whatever the schedules.  A detail file is filed under the slug and the
    timestamp of such a record and holds the record, or is cut short because
    the code of the record cannot be encoded; an accepted file is named after
    such a record whose status is Accepted and holds the bytes of its code. *)
Theorem writes_come_from_the_feed env feed sched fuel d s' :
  fetch_submissions fuel env feed sched (fresh_run d) = Some s' →
  Forall (written_from (served feed)) (trace (now s')).
Proof.
  unfold fetch_submissions. intros H.
  apply (fetch_loop_written_from _ _ _ _ _ _ H).
  cbn. repeat constructor.
Qed.

Lemma writes_come_from_the_feed_witness :
  Forall (written_from (served Samples.one_page)) (trace (now Samples.first_run)).
Proof.
  apply (writes_come_from_the_feed Samples.permissive Samples.one_page
           Samples.serial 2 Samples.empty_disk Samples.first_run).
  vm_compute. reflexivity.
Defined.

(** ** The browser session *)

Lemma elem_of_note e e' b :
  e ∈ session_log (note e' b) ↔ e = e' ∨ e ∈ session_log b.
Proof. cbn. apply elem_of_cons. Qed.

Lemma one_at_a_time_cons e tr :
  (∀ id, e ≠ DriverStarted id) → one_at_a_time (e :: tr) ↔ one_at_a_time tr.
Proof. intros H. destruct e; cbn; try done. now destruct (H id). Qed.

Lemma session_inv_note e b :
  (∀ id, e ≠ DriverStarted id) → session_inv b → session_inv (note e b).
Proof.
  intros He [H1 H2]. split.
  - intros id Hid. apply elem_of_note in Hid as [Heq | Hid]; [now destruct (He id) |].
    destruct (H1 id Hid) as [? | ?]; [now left | right].
    apply elem_of_note. now right.
  - cbn [note session_log]. now apply one_at_a_time_cons.
Qed.

Lemma setup_driver_inv senv b :
  driver b = None → session_inv b →
  match setup_driver senv b with
  | (Some d, b1) => session_inv (set_driver (Some d) b1)
  | (None, b1) => session_inv b1 ∧ driver b1 = None
  end.
Proof.
  intros Hd [H1 H2]. unfold setup_driver.
  cbn [note setups quit_calls session_log driver].
  destruct (setup_ok senv (setups b)).
  - assert (∀ id, DriverStarted id ∈ LogInitializing :: session_log b →
                  QuitCall id true ∈ LogInitializing :: session_log b) as Hall.
    { intros id Hid. apply elem_of_cons in Hid as [? | Hid]; [done |].
      destruct (H1 id Hid) as [? | ?]; [congruence |]. now apply list_elem_of_further. }
    split.
    + intros id Hid. cbn [set_driver session_log driver] in *.
      apply elem_of_cons in Hid as [Heq | Hid].
      * injection Heq as ->. now left.
      * right. apply list_elem_of_further. now apply Hall.
    + cbn [set_driver session_log one_at_a_time]. split; [exact Hall | exact H2].
  - split; [| exact Hd]. split.
    + intros id Hid. cbn [session_log driver] in *.
      apply elem_of_cons in Hid as [? | Hid]; [done |].
      apply elem_of_cons in Hid as [? | Hid]; [done |].
      destruct (H1 id Hid) as [? | ?]; [now left | right].
      now do 2 apply list_elem_of_further.
    + cbn [session_log one_at_a_time]. exact H2.
Qed.

Lemma login_form_inv senv attempt d b :
  session_inv b → session_inv (login_form senv attempt d b).2.
Proof.
  intros Hb. unfold login_form.
  destruct (form senv attempt); cbn [snd];
    repeat (apply session_inv_note; [done |]); exact Hb.
Qed.

Lemma try_block_inv senv attempt b :
  session_inv b → session_inv (try_block senv attempt b).2.
Proof.
  intros Hb. unfold try_block.
  destruct (driver b) as [d |] eqn:Hd; [now apply login_form_inv |].
  pose proof (setup_driver_inv senv b Hd Hb) as H1.
  destruct (setup_driver senv b) as [[d |] b1]; [now apply login_form_inv |].
  cbn [snd]. tauto.
Qed.

Lemma quit_driver_inv senv d b :
  session_inv b → session_inv (quit_driver senv d b).2.
Proof.
  intros [H1 H2]. unfold quit_driver. cbn [snd]. split.
  - intros id Hid. cbn [session_log driver] in *.
    apply elem_of_cons in Hid as [? | Hid]; [done |].
    destruct (H1 id Hid) as [? | ?]; [now left | right].
    now apply list_elem_of_further.
  - cbn [session_log one_at_a_time]. exact H2.
Qed.

Lemma quit_driver_returned senv d b :
  driver b = Some d → session_inv b →
  (quit_driver senv d b).1 = true →
  session_inv (set_driver None (quit_driver senv d b).2).
Proof.
  intros Hd [H1 H2]. unfold quit_driver. cbn [fst snd]. intros Hok.
  rewrite Hok. split.
  - intros id Hid. cbn [set_driver session_log driver] in *. right.
    apply elem_of_cons in Hid as [? | Hid]; [done |].
    destruct (H1 id Hid) as [? | ?].
    + assert (id = d) as -> by congruence. apply list_elem_of_here.
    + now apply list_elem_of_further.
  - cbn [set_driver session_log one_at_a_time]. exact H2.
Qed.

Lemma except_block_inv senv attempt e b :
  session_inv b → session_inv (except_block senv attempt e b).2.
Proof.
  intros Hb. unfold except_block.
  assert (session_inv (note (LogAttemptFailed (attempt + 1) e) b)) as H1
    by now apply session_inv_note.
  destruct (attempt =? MAX_RETRIES - 1)%nat.
  - destruct (driver (note (LogAttemptFailed (attempt + 1) e) b)) as [d |];
      cbn [snd]; [| exact H1].
    destruct (screenshot_ok senv); cbn [snd]; [| exact H1].
    now apply session_inv_note.
  - assert (session_inv (note (SessionSleep 2)
                           (note (LogAttemptFailed (attempt + 1) e) b))) as H2
      by now apply session_inv_note.
    destruct (driver (note (SessionSleep 2)
                        (note (LogAttemptFailed (attempt + 1) e) b)))
      as [d |] eqn:Hd; cbn [snd]; [| exact H2].
    pose proof (quit_driver_inv senv d _ H2) as H3.
    pose proof (quit_driver_returned senv d _ Hd H2) as H4.
    destruct (quit_driver senv d
                (note (SessionSleep 2)
                   (note (LogAttemptFailed (attempt + 1) e) b))) as [ok b3].
    cbn [fst snd] in *. destruct ok; cbn [snd]; [now apply H4 | exact H3].
Qed.

Lemma login_from_inv senv attempts b :
  session_inv b → session_inv (login_from senv attempts b).2.
Proof.
  revert b. induction attempts as [| a rest IH]; intros b Hb; [exact Hb |].
  cbn [login_from].
  pose proof (try_block_inv senv a b Hb) as H1.
  destruct (try_block senv a b) as [[| | e] b1]; cbn [snd] in H1.
  - exact H1.
  - now apply IH.
  - pose proof (except_block_inv senv a e b1 H1) as H2.
    destruct (except_block senv a e b1) as [[e' |] b2]; cbn [snd] in H2.
    + exact H2.
    + now apply IH.
Qed.

Lemma login_inv senv b : session_inv b → session_inv (login senv b).2.
Proof.
  intros Hb. unfold login. apply login_from_inv. now apply session_inv_note.
Qed.

Lemma new_browser_inv : session_inv new_browser.
Proof. split; [intros id Hid; cbn in Hid; now apply elem_of_nil in Hid | exact I]. Qed.

Lemma finally_block_quits senv b :
  session_inv b →
  (∀ id, DriverStarted id ∈ session_log (finally_block senv b).2 →
         ∃ ok, QuitCall id ok ∈ session_log (finally_block senv b).2)
  ∧ one_at_a_time (session_log (finally_block senv b).2).
Proof.
  intros [H1 H2]. unfold finally_block.
  destruct (driver b) as [d |] eqn:Hd; cbn [snd quit_driver note session_log].
  - split; [| exact H2]. intros id Hid.
    apply elem_of_cons in Hid as [? | Hid]; [done |].
    apply elem_of_cons in Hid as [? | Hid]; [done |].
    destruct (H1 id Hid) as [? | ?].
    + assert (id = d) as -> by congruence. eexists. apply list_elem_of_here.
    + exists true. now do 2 apply list_elem_of_further.
  - split; [| exact H2]. intros id Hid.
    destruct (H1 id Hid) as [? | ?]; [congruence | now exists true].
Qed.

Lemma run_session senv env feed sched fuel w r b' w' :
  run fuel senv env feed sched new_browser w = Some (r, b', w') →
  (∀ id, DriverStarted id ∈ session_log b' → ∃ ok, QuitCall id ok ∈ session_log b')
  ∧ one_at_a_time (session_log b').
Proof.
  unfold run. pose proof (login_inv senv new_browser new_browser_inv) as Hl.
  destruct (login senv new_browser) as [[e |] b1]; cbn [snd] in Hl.
  - assert (session_inv (note (LogFatal e) b1)) as Hn
      by now apply session_inv_note.
    pose proof (finally_block_quits senv (note (LogFatal e) b1) Hn) as Hf.
    destruct (finally_block senv (note (LogFatal e) b1)) as [q b2].
    intros [= <- <- <-]. exact Hf.
  - destruct (fetch_submissions fuel env feed sched w) as [s |]; [| discriminate].
    pose proof (finally_block_quits senv b1 Hl) as Hf.
    destruct (finally_block senv b1) as [q b2].
    intros [= <- <- <-]. exact Hf.
Qed.

(** X15. When [run] ends, with or without an exception, [quit] has been
    called on every Chrome driver that was started. *)
Theorem run_quits_every_driver senv env feed sched fuel w r b' w' :
  run fuel senv env feed sched new_browser w = Some (r, b', w') →
  ∀ id, DriverStarted id ∈ session_log b' → ∃ ok, QuitCall id ok ∈ session_log b'.
Proof. intros H. now apply (run_session _ _ _ _ _ _ _ _ _ H). Qed.

Lemma run_quits_every_driver_witness :
  run 2 MoreSamples.third_time_lucky Samples.permissive Samples.one_page
    Samples.serial new_browser (fresh_run Samples.empty_disk)
  = Some (None, MoreSamples.lucky_browser, now Samples.first_run)
  ∧ ∀ id, DriverStarted id ∈ session_log MoreSamples.lucky_browser →
          ∃ ok, QuitCall id ok ∈ session_log MoreSamples.lucky_browser.
Proof.
  split; [vm_compute; reflexivity |].
  apply (run_quits_every_driver MoreSamples.third_time_lucky Samples.permissive
           Samples.one_page Samples.serial 2 (fresh_run Samples.empty_disk) None _
           (now Samples.first_run)).
  vm_compute. reflexivity.
Defined.

Lemma one_at_a_time_split tr :
  one_at_a_time tr →
  ∀ newer id older,
    tr = newer ++ DriverStarted id :: older →
    ∀ id', DriverStarted id' ∈ older → QuitCall id' true ∈ older.
Proof.
  induction tr as [| e tr IH]; intros H newer id older Heq.
  - now destruct newer.
  - destruct newer as [| e1 newer]; cbn [app] in Heq; injection Heq as -> ->.
    + cbn in H. tauto.
    + apply (IH ltac:(destruct e1; cbn in H; tauto) newer id older eq_refl).
Qed.

(** X16. A session never holds two Chrome drivers: whenever a driver is
    started, [quit] has returned for every driver started before it. *)
Theorem one_driver_at_a_time senv env feed sched fuel w r b' w' :
  run fuel senv env feed sched new_browser w = Some (r, b', w') →
  ∀ newer id older,
    session_log b' = newer ++ DriverStarted id :: older →
    ∀ id', DriverStarted id' ∈ older → QuitCall id' true ∈ older.
Proof.
  intros H. apply one_at_a_time_split. now apply (run_session _ _ _ _ _ _ _ _ _ H).
Qed.

Lemma one_driver_at_a_time_witness :
  run 2 MoreSamples.third_time_lucky Samples.permissive Samples.one_page
    Samples.serial new_browser (fresh_run Samples.empty_disk)
  = Some (None, MoreSamples.lucky_browser, now Samples.first_run)
  ∧ ∀ newer id older,
      session_log MoreSamples.lucky_browser = newer ++ DriverStarted id :: older →
      ∀ id', DriverStarted id' ∈ older → QuitCall id' true ∈ older.
Proof.
  split; [vm_compute; reflexivity |].
  apply (one_driver_at_a_time MoreSamples.third_time_lucky Samples.permissive
           Samples.one_page Samples.serial 2 (fresh_run Samples.empty_disk) None _
           (now Samples.first_run)).
  vm_compute. reflexivity.
Defined.

(** X17. When Chrome cannot be started in any of the three attempts, the
    exception that leaves [run] is the [AttributeError] of
    [self.driver.save_screenshot] on [None], not the error of the driver:
    no screenshot is taken, no request is made and the files are as they
    were. *)
Theorem no_driver_masks_setup_error senv env feed sched fuel w :
  (∀ n, (n < MAX_RETRIES)%nat → setup_ok senv n = false) →
  ∃ b',
    run fuel senv env feed sched new_browser w = Some (Some NoDriver, b', w)
    ∧ driver b' = None
    ∧ setups b' = MAX_RETRIES
    ∧ quit_calls b' = 0%nat
    ∧ (∀ id, Screenshot id ∉ session_log b')
    ∧ LogAttemptFailed 3 SetupError ∈ session_log b'.
Proof.
  intros H.
  pose proof (H 0%nat ltac:(unfold MAX_RETRIES; lia)) as H0.
  pose proof (H 1%nat ltac:(unfold MAX_RETRIES; lia)) as H1.
  pose proof (H 2%nat ltac:(unfold MAX_RETRIES; lia)) as H2.
  eexists. unfold run, login, MAX_RETRIES. cbn [seq login_from].
  unfold try_block, setup_driver, except_block, finally_block, note, new_browser,
    MAX_RETRIES.
  cbn [driver setups quit_calls session_log]. rewrite H0. cbn.
  rewrite H1. cbn. rewrite H2. cbn.
  split_and!; try reflexivity.
  - intros id Hid. repeat (apply elem_of_cons in Hid as [? | Hid]; [done |]).
    now apply elem_of_nil in Hid.
  - repeat (first [apply list_elem_of_here | apply list_elem_of_further]).
Qed.

Lemma no_driver_masks_setup_error_witness :
  ∃ b',
    run 0 MoreSamples.no_chrome Samples.permissive Samples.one_page Samples.serial
      new_browser (fresh_run Samples.empty_disk)
    = Some (Some NoDriver, b', fresh_run Samples.empty_disk)
    ∧ driver b' = None
    ∧ setups b' = MAX_RETRIES
    ∧ quit_calls b' = 0%nat
    ∧ (∀ id, Screenshot id ∉ session_log b')
    ∧ LogAttemptFailed 3 SetupError ∈ session_log b'.
Proof.
  apply (no_driver_masks_setup_error MoreSamples.no_chrome).
  intros n _. reflexivity.
Defined.

Lemma login_form_driver senv a d b b1 :
  driver b = Some d →
  (login_form senv a d b = (Return, b1) ∨ login_form senv a d b = (FallThrough, b1)) →
  is_Some (driver b1).
Proof.
  intros Hd. unfold login_form.
  destruct (form senv a); intros [[=] | [=]]; subst b1; cbn; rewrite Hd; eauto.
Qed.

Lemma try_block_driver senv a b b1 :
  (try_block senv a b = (Return, b1) ∨ try_block senv a b = (FallThrough, b1)) →
  is_Some (driver b1).
Proof.
  unfold try_block.
  destruct (driver b) as [d |] eqn:Hd; [now apply login_form_driver |].
  destruct (setup_driver senv b) as [[d |] b0];
    [now apply login_form_driver | intros [? | ?]; discriminate].
Qed.

Lemma login_from_returns senv attempts b b' :
  last attempts = Some (MAX_RETRIES - 1)%nat →
  login_from senv attempts b = (None, b') →
  is_Some (driver b').
Proof.
  revert b. induction attempts as [| a rest IH]; intros b Hlast; [discriminate |].
  cbn [login_from].
  destruct (try_block senv a b) as [[| | e] b1] eqn:Ht.
  - intros [= <-]. apply (try_block_driver senv a b b1). now left.
  - destruct rest as [| a' rest'].
    + cbn. intros [= <-]. apply (try_block_driver senv a b b1). now right.
    + apply IH. exact Hlast.
  - destruct (except_block senv a e b1) as [[e' |] b2] eqn:He; [discriminate |].
    destruct rest as [| a' rest'].
    + exfalso. cbn in Hlast. injection Hlast as ->.
      unfold except_block in He. cbn in He.
      destruct (driver b1); [destruct (screenshot_ok senv) |]; discriminate.
    + apply IH. exact Hlast.
Qed.

(** X18. [login] returns without an exception only with a driver in
    [self.driver], so that [fetch_submissions] has a browser to ask. *)
Theorem login_returns_with_driver senv b b' :
  login senv b = (None, b') → is_Some (driver b').
Proof. unfold login. now apply login_from_returns. Qed.

Lemma login_returns_with_driver_witness :
  is_Some (driver (login MoreSamples.third_time_lucky new_browser).2).
Proof.
  apply (login_returns_with_driver MoreSamples.third_time_lucky new_browser).
  vm_compute. reflexivity.
Defined.
